(** * SpaceXLaunchBot: the pickled [DataStore] of [spacexlaunchbot/storage.py]

    The store keeps three fields (the subscribed channels, a flag and the
    previously sent schedule embed), hands out deep copies of them and
    pickles them to one file after every change.  Python objects are
    mutable and shared by reference, so the embedding keeps an explicit
    object heap: a value is an atom or a reference, [deepcopy] and
    [pickle.load] build fresh objects, and a method is a function on the
    state made of the instance dictionary, the heap and the file system. *)

From Stdlib Require Import ZArith String List Lia.
From stdpp Require Import base gmap strings list fin_maps.

Set Warnings "-clear-no-such-hyp".

(** ** Python values and the object heap *)

Module Py.

(** Modelled from the spec: [NotificationType] is imported from
    [notifications.py], which is not part of the sources.  The spec calls it
    an externally defined enumeration that the store keeps and returns
    without interpreting; a member is represented by its ordinal. *)
Inductive NotificationType := Member (ordinal : Z).

Abbreviation loc := positive (only parsing).

(** Hashable atoms used as dictionary keys.  [True] and [1] are the same
    key in Python, so a boolean key is stored as its integer. *)
Inductive key :=
| KNone
| KInt (z : Z)
| KStr (s : string)
| KEnum (e : NotificationType).

Inductive val :=
| VNone
| VBool (b : bool)
| VInt (z : Z)
| VStr (s : string)
| VEnum (e : NotificationType)
| VRef (l : loc).

(** Mutable objects: [dict] (insertion ordered), [list], and instances of
    the dataclass [SubscriptionOptions]. *)
Inductive obj :=
| ODict (items : list (key * val))
| OList (elems : list val)
| OSubscriptionOptions (notification_type launch_mentions : val).

#[global] Instance NotificationType_eq_dec : EqDecision NotificationType.
Proof. solve_decision. Defined.
#[global] Instance key_eq_dec : EqDecision key.
Proof. solve_decision. Defined.
#[global] Instance val_eq_dec : EqDecision val.
Proof. solve_decision. Defined.
#[global] Instance obj_eq_dec : EqDecision obj.
Proof. solve_decision. Defined.

Definition key_code (k : key) : unit + (Z + (string + Z)) :=
  match k with
  | KNone => inl tt
  | KInt z => inr (inl z)
  | KStr s => inr (inr (inl s))
  | KEnum (Member z) => inr (inr (inr z))
  end.

Definition key_decode (c : unit + (Z + (string + Z))) : key :=
  match c with
  | inl _ => KNone
  | inr (inl z) => KInt z
  | inr (inr (inl s)) => KStr s
  | inr (inr (inr z)) => KEnum (Member z)
  end.

#[global] Instance key_countable : Countable key.
Proof.
  apply (inj_countable' key_code key_decode).
  intros [| | |[]]; reflexivity.
Defined.

(** The heap: the allocated objects and the next free address.  An address
    below [next] without a cell is reserved: the object exists but its
    content has not been written yet (see [copy_val]). *)
Record heap := Heap { cells : gmap loc obj; next : loc }.

Definition alloc (o : obj) (h : heap) : loc * heap :=
  (next h, Heap (<[next h := o]> (cells h)) (Pos.succ (next h))).

Definition reserve (h : heap) : loc * heap :=
  (next h, Heap (cells h) (Pos.succ (next h))).

Definition store (l : loc) (o : obj) (h : heap) : heap :=
  Heap (<[l := o]> (cells h)) (next h).

(** The values an object holds, in order, and the same object around other
    values. *)
Definition obj_vals (o : obj) : list val :=
  match o with
  | ODict items => items.*2
  | OList elems => elems
  | OSubscriptionOptions a b => [a; b]
  end.

Definition obj_rebuild (o : obj) (vs : list val) : obj :=
  match o with
  | ODict items => ODict (zip (items.*1) vs)
  | OList _ => OList vs
  | OSubscriptionOptions a b =>
      match vs with
      | [a'; b'] => OSubscriptionOptions a' b'
      | _ => o
      end
  end.

(** *** Copying an object graph

    [copy.deepcopy] and [pickle.load] both rebuild the graph reachable from
    a value out of fresh objects, keeping a memo from the objects already
    met to their copies so that sharing and cycles are kept.  [src] is the
    graph read (the current heap for [deepcopy], the pickled graph for
    [pickle.load]); the copies go to [h].  The copy of a container is
    created first, entered in the memo, and filled while its items are
    copied: its address is reserved before the items are visited and its
    content is written once they are. *)
Abbreviation memo := (gmap loc loc) (only parsing).

Fixpoint copy_list (cp : memo → heap → val → option (val * memo * heap))
    (m : memo) (h : heap) (vs : list val) : option (list val * memo * heap) :=
  match vs with
  | [] => Some ([], m, h)
  | v :: vs' =>
      match cp m h v with
      | None => None
      | Some (v', m1, h1) =>
          match copy_list cp m1 h1 vs' with
          | None => None
          | Some (vs'', m2, h2) => Some (v' :: vs'', m2, h2)
          end
      end
  end.

Fixpoint copy_val (fuel : nat) (src : gmap loc obj) (m : memo) (h : heap)
    (v : val) : option (val * memo * heap) :=
  match v with
  | VRef l =>
      match m !! l with
      | Some l' => Some (VRef l', m, h)
      | None =>
          match fuel with
          | O => None
          | S fuel' =>
              match src !! l with
              | None => None
              | Some o =>
                  let '(l', h1) := reserve h in
                  match copy_list (copy_val fuel' src) (<[l := l']> m) h1
                          (obj_vals o) with
                  | None => None
                  | Some (vs', m2, h2) =>
                      Some (VRef l', m2, store l' (obj_rebuild o vs') h2)
                  end
              end
          end
      end
  | _ => Some (v, m, h)
  end.

(** Every object is entered in the memo before its items are visited, so
    the nesting of the recursion never exceeds the number of objects of the
    graph read. *)
Definition copy_graph (src : gmap loc obj) (h : heap) (v : val)
    : option (val * heap) :=
  match copy_val (S (size src)) src ∅ h v with
  | Some (v', _, h') => Some (v', h')
  | None => None
  end.

(** *** The value an object graph denotes

    The finite tree below a value, when there is one: [None] when the
    graph is deeper than [n], cyclic, or has a dangling reference.  Two
    values with the same tree compare equal with Python's [==]. *)
#[local] Unset Elimination Schemes.
Inductive tree :=
| TNone
| TBool (b : bool)
| TInt (z : Z)
| TStr (s : string)
| TEnum (e : NotificationType)
| TDict (items : list (key * tree))
| TList (elems : list tree)
| TSubscriptionOptions (fields : list tree).
#[local] Set Elimination Schemes.

Definition tree_of (o : obj) (ts : list tree) : tree :=
  match o with
  | ODict items => TDict (zip (items.*1) ts)
  | OList _ => TList ts
  | OSubscriptionOptions _ _ => TSubscriptionOptions ts
  end.

Fixpoint reify (n : nat) (g : gmap loc obj) (v : val) : option tree :=
  match v with
  | VNone => Some TNone
  | VBool b => Some (TBool b)
  | VInt z => Some (TInt z)
  | VStr s => Some (TStr s)
  | VEnum e => Some (TEnum e)
  | VRef l =>
      match n with
      | O => None
      | S n' =>
          match g !! l with
          | None => None
          | Some o =>
              match mapM (reify n' g) (obj_vals o) with
              | None => None
              | Some ts => Some (tree_of o ts)
              end
          end
      end
  end.

(** [l] is an object met when walking the graph from [v]. *)
Inductive reachable (g : gmap loc obj) : val → loc → Prop :=
| reach_here l : reachable g (VRef l) l
| reach_step l o v l2 :
    g !! l = Some o → v ∈ obj_vals o → reachable g v l2 →
    reachable g (VRef l) l2.

(** A well-formed heap: cells live below [next], hold no dangling
    reference, and dictionaries have one entry per key. *)
Definition closed (g : gmap loc obj) : Prop :=
  ∀ l o l', g !! l = Some o → VRef l' ∈ obj_vals o → is_Some (g !! l').

Definition heap_wf (h : heap) : Prop :=
  (∀ l, is_Some (cells h !! l) → (l < next h)%positive) ∧ closed (cells h).

Definition val_in (g : gmap loc obj) (v : val) : Prop :=
  ∀ l, v = VRef l → is_Some (g !! l).

End Py.

(** ** The file system, as far as [open] and [pickle] need it *)

Module FS.
Import Py.

(** What a file holds: the object graph a pickle stream encodes, or bytes
    that are not a pickle stream (an empty or truncated file included). *)
Inductive content :=
| Pickled (root : val) (graph : gmap loc obj)
| Garbage.

Record file := File { data : content; readable : bool }.

(** [no_write]: paths that [open(path, "wb")] refuses; [full]: no space is
    left, so a file opened for writing is truncated and the write fails. *)
Record fs := Fs {
  files : gmap string file;
  no_write : gset string;
  full : bool
}.

Definition write (p : string) (c : content) (d : fs) : fs :=
  let r := match files d !! p with Some f => readable f | None => true end in
  Fs (<[p := File c r]> (files d)) (no_write d) (full d).

End FS.

(** ** Exceptions and the monad of methods *)

Module Exec.
Import Py FS.

Inductive exn :=
| FileNotFoundError
| PermissionError
| OSError
| UnpicklingError
| TypeError
| ValueError
| AttributeError
| KeyError
| IndexError
| MemoryFault.

Inductive result (A : Type) :=
| Ok (a : A)
| Raise (e : exn).
Arguments Ok {A} a.
Arguments Raise {A} e.

(** The instance dictionary [self.__dict__], the heap and the disk.  A
    raised exception keeps the state reached so far. *)
Record state := State {
  self : gmap key val;
  mem : heap;
  disk : fs
}.

Definition M (A : Type) : Type := state → result A * state.

Definition ret {A} (a : A) : M A := λ s, (Ok a, s).

Definition bind {A B} (c : M A) (k : A → M B) : M B :=
  λ s, match c s with
       | (Ok a, s') => k a s'
       | (Raise e, s') => (Raise e, s')
       end.

Definition raise {A} (e : exn) : M A := λ s, (Raise e, s).

#[global] Instance M_ret : MRet M := @ret.
#[global] Instance M_bind : MBind M := λ A B k c, bind c k.

(** [try: c except FileNotFoundError: h] *)
Definition try_except_FileNotFoundError (c h : M unit) : M unit :=
  λ s, match c s with
       | (Raise FileNotFoundError, s') => h s'
       | r => r
       end.

Definition getattr (name : string) : M val :=
  λ s, match self s !! KStr name with
       | Some v => (Ok v, s)
       | None => (Raise AttributeError, s)
       end.

Definition setattr (k : key) (v : val) : M unit :=
  λ s, (Ok tt, State (<[k := v]> (self s)) (mem s) (disk s)).

Definition new_obj (o : obj) : M val :=
  λ s, let '(l, h) := alloc o (mem s) in
       (Ok (VRef l), State (self s) h (disk s)).

Definition deref (l : loc) : M obj :=
  λ s, match cells (mem s) !! l with
       | Some o => (Ok o, s)
       | None => (Raise MemoryFault, s)
       end.

Definition assign (l : loc) (o : obj) : M unit :=
  λ s, (Ok tt, State (self s) (store l o (mem s)) (disk s)).

(** [copy.deepcopy(v)] *)
Definition deepcopy (v : val) : M val :=
  λ s, match copy_graph (cells (mem s)) (mem s) v with
       | Some (v', h) => (Ok v', State (self s) h (disk s))
       | None => (Raise MemoryFault, s)
       end.

(** *** Container operations with an [int] key *)

Definition int_eq (z : Z) (v : val) : bool :=
  match v with
  | VInt z' => Z.eqb z' z
  | VBool b => Z.eqb (Z.b2z b) z
  | _ => false
  end.

Definition has_key (k : key) (items : list (key * val)) : bool :=
  existsb (λ kv, bool_decide (kv.1 = k)) items.

Fixpoint set_key (k : key) (v : val) (items : list (key * val))
    : list (key * val) :=
  match items with
  | [] => [(k, v)]
  | (k', v') :: rest =>
      if decide (k' = k) then (k', v) :: rest else (k', v') :: set_key k v rest
  end.

Fixpoint del_key (k : key) (items : list (key * val)) : list (key * val) :=
  match items with
  | [] => []
  | (k', v') :: rest =>
      if decide (k' = k) then rest else (k', v') :: del_key k rest
  end.

(** A list index: negative ones count from the end. *)
Definition list_index (i : Z) (n : nat) : option nat :=
  let j := if (i <? 0)%Z then (i + Z.of_nat n)%Z else i in
  if ((0 <=? j)%Z && (j <? Z.of_nat n)%Z)%bool then Some (Z.to_nat j) else None.

(** [i in c] *)
Definition py_contains (i : Z) (c : val) : M bool :=
  match c with
  | VRef l =>
      o ← deref l;
      match o with
      | ODict items => mret (has_key (KInt i) items)
      | OList elems => mret (existsb (int_eq i) elems)
      | OSubscriptionOptions _ _ => raise TypeError
      end
  | _ => raise TypeError
  end.

(** [c[i] = v] *)
Definition py_setitem (c : val) (i : Z) (v : val) : M unit :=
  match c with
  | VRef l =>
      o ← deref l;
      match o with
      | ODict items => assign l (ODict (set_key (KInt i) v items))
      | OList elems =>
          match list_index i (length elems) with
          | Some j => assign l (OList (<[j := v]> elems))
          | None => raise IndexError
          end
      | OSubscriptionOptions _ _ => raise TypeError
      end
  | _ => raise TypeError
  end.

(** [del c[i]] *)
Definition py_delitem (c : val) (i : Z) : M unit :=
  match c with
  | VRef l =>
      o ← deref l;
      match o with
      | ODict items =>
          if has_key (KInt i) items
          then assign l (ODict (del_key (KInt i) items))
          else raise KeyError
      | OList elems =>
          match list_index i (length elems) with
          | Some j => assign l (OList (delete j elems))
          | None => raise IndexError
          end
      | OSubscriptionOptions _ _ => raise TypeError
      end
  | _ => raise TypeError
  end.

(** [len(c)] *)
Definition py_len (c : val) : M Z :=
  match c with
  | VRef l =>
      o ← deref l;
      match o with
      | ODict items => mret (Z.of_nat (length items))
      | OList elems => mret (Z.of_nat (length elems))
      | OSubscriptionOptions _ _ => raise TypeError
      end
  | VStr s => mret (Z.of_nat (String.length s))
  | _ => raise TypeError
  end.

(** *** [dict.update(other)]

    A mapping is merged entry by entry; any other iterable must yield
    two-element sequences [(key, value)]. *)
Definition key_of_val (v : val) : option key :=
  match v with
  | VNone => Some KNone
  | VBool b => Some (KInt (Z.b2z b))
  | VInt z => Some (KInt z)
  | VStr s => Some (KStr s)
  | VEnum e => Some (KEnum e)
  | VRef _ => None
  end.

Definition val_of_key (k : key) : val :=
  match k with
  | KNone => VNone
  | KInt z => VInt z
  | KStr s => VStr s
  | KEnum e => VEnum e
  end.

Definition pair_of_elem (v : val) : M (key * val) :=
  match v with
  | VStr (String a (String b EmptyString)) =>
      mret (KStr (String a EmptyString), VStr (String b EmptyString))
  | VStr _ => raise ValueError
  | VRef l =>
      o ← deref l;
      match o with
      | OList [k; x] =>
          match key_of_val k with
          | Some k' => mret (k', x)
          | None => raise TypeError
          end
      | OList _ => raise ValueError
      | ODict [(k1, _); (k2, _)] => mret (k1, val_of_key k2)
      | ODict _ => raise ValueError
      | OSubscriptionOptions _ _ => raise TypeError
      end
  | _ => raise TypeError
  end.

Fixpoint update_items (items : list (key * val)) : M unit :=
  match items with
  | [] => mret tt
  | (k, v) :: rest => setattr k v;; update_items rest
  end.

Fixpoint update_pairs (elems : list val) : M unit :=
  match elems with
  | [] => mret tt
  | e :: rest => kv ← pair_of_elem e; setattr kv.1 kv.2;; update_pairs rest
  end.

(** [self.__dict__.update(other)] *)
Definition self_dict_update (other : val) : M unit :=
  match other with
  | VRef l =>
      o ← deref l;
      match o with
      | ODict items => update_items items
      | OList elems => update_pairs elems
      | OSubscriptionOptions _ _ => raise TypeError
      end
  | VStr EmptyString => mret tt
  | VStr _ => raise ValueError
  | _ => raise TypeError
  end.

(** *** Files *)

(** [with open(path, "rb") as f_in: pickle.load(f_in)] *)
Definition read_pickle (path : val) : M val :=
  match path with
  | VStr p =>
      λ s, match files (disk s) !! p with
           | None => (Raise FileNotFoundError, s)
           | Some f =>
               if readable f then
                 match data f with
                 | Garbage => (Raise UnpicklingError, s)
                 | Pickled root g =>
                     match copy_graph g (mem s) root with
                     | Some (v, h) => (Ok v, State (self s) h (disk s))
                     | None => (Raise UnpicklingError, s)
                     end
                 end
               else (Raise PermissionError, s)
           end
  | _ => raise TypeError
  end.

(** [with open(path, "wb") as f_out: pickle.dump(v, f_out, ...)]: opening
    truncates the file, the dump then writes the graph below [v]. *)
Definition write_pickle (path : val) (v : val) : M unit :=
  match path with
  | VStr p =>
      λ s, if decide (p ∈ no_write (disk s)) then (Raise PermissionError, s)
           else if full (disk s)
           then (Raise OSError, State (self s) (mem s) (write p Garbage (disk s)))
           else (Ok tt, State (self s) (mem s)
                          (write p (Pickled v (cells (mem s))) (disk s)))
  | _ => raise TypeError
  end.

End Exec.

(** ** The class [DataStore] *)

Module DataStore.
Import Py FS Exec.

Definition _pickle_file_path : string := "_pickle_file_path".
Definition _subscribed_channels : string := "_subscribed_channels".
Definition _launch_embed_for_current_schedule_sent : string :=
  "_launch_embed_for_current_schedule_sent".
Definition _previous_schedule_embed_dict : string :=
  "_previous_schedule_embed_dict".

(** [SubscriptionOptions(notif_type, launch_mentions)] *)
Definition SubscriptionOptions (notification_type : NotificationType)
    (launch_mentions : string) : obj :=
  OSubscriptionOptions (VEnum notification_type) (VStr launch_mentions).

(** The calls to [logging.info] write to the log only and are left out. *)
Definition __init__ (pickle_file_path : string) : M unit :=
  setattr (KStr _pickle_file_path) (VStr pickle_file_path);;
  channels ← new_obj (ODict []);
  setattr (KStr _subscribed_channels) channels;;
  setattr (KStr _launch_embed_for_current_schedule_sent) (VBool false);;
  embed ← new_obj (ODict []);
  setattr (KStr _previous_schedule_embed_dict) embed;;
  try_except_FileNotFoundError
    (path ← getattr _pickle_file_path;
     tmp ← read_pickle path;
     self_dict_update tmp)
    (mret tt).

(** [DataStore(pickle_file_path)]: a new instance, run through [__init__]
    in a process whose heap is [h] and whose disk is [d]. *)
Definition new (pickle_file_path : string) (h : heap) (d : fs)
    : result unit * state :=
  __init__ pickle_file_path (State ∅ h d).

Definition save : M unit :=
  a ← getattr _subscribed_channels;
  b ← getattr _launch_embed_for_current_schedule_sent;
  c ← getattr _previous_schedule_embed_dict;
  to_dump ← new_obj (ODict [(KStr _subscribed_channels, a);
                            (KStr _launch_embed_for_current_schedule_sent, b);
                            (KStr _previous_schedule_embed_dict, c)]);
  path ← getattr _pickle_file_path;
  write_pickle path to_dump.

Definition get_notification_task_vars : M (val * val) :=
  sent ← getattr _launch_embed_for_current_schedule_sent;
  embed ← getattr _previous_schedule_embed_dict;
  embed' ← deepcopy embed;
  mret (sent, embed').

Definition set_notification_task_vars
    (launch_embed_for_current_schedule_sent : bool)
    (previous_schedule_embed_dict : val) : M unit :=
  setattr (KStr _launch_embed_for_current_schedule_sent)
    (VBool launch_embed_for_current_schedule_sent);;
  embed ← deepcopy previous_schedule_embed_dict;
  setattr (KStr _previous_schedule_embed_dict) embed;;
  save.

Definition add_subbed_channel (channel_id : Z) (notif_type : NotificationType)
    (launch_mentions : string) : M bool :=
  channels ← getattr _subscribed_channels;
  present ← py_contains channel_id channels;
  if negb present then
    (options ← new_obj (SubscriptionOptions notif_type launch_mentions);
     channels' ← getattr _subscribed_channels;
     py_setitem channels' channel_id options;;
     save;;
     mret true)
  else mret false.

Definition get_subbed_channels : M val :=
  channels ← getattr _subscribed_channels;
  deepcopy channels.

Definition remove_subbed_channel (channel_id : Z) : M bool :=
  channels ← getattr _subscribed_channels;
  present ← py_contains channel_id channels;
  if (present : bool) then
    (channels' ← getattr _subscribed_channels;
     py_delitem channels' channel_id;;
     save;;
     mret true)
  else mret false.

Definition subbed_channels_count : M Z :=
  channels ← getattr _subscribed_channels;
  py_len channels.

End DataStore.

(** ** Vocabulary of the statements *)

Module Spec.
Import Py FS Exec DataStore.

(** [v'] is the image of [v] under the memo: the same atom, or the copy of
    the object [v] refers to. *)
Definition val_match (m : memo) (v v' : val) : Prop :=
  match v with
  | VRef l => ∃ l', v' = VRef l' ∧ m !! l = Some l'
  | _ => v' = v
  end.

Definition obj_match (m : memo) (o o' : obj) : Prop :=
  ∃ vs', o' = obj_rebuild o vs' ∧ Forall2 (val_match m) (obj_vals o) vs'.

(** What a copy from [src] does to the memo and to the heap. *)
Record copy_post (src : gmap loc obj) (m : memo) (h : heap)
    (m' : memo) (h' : heap) : Prop := CopyPost {
  cp_memo : m ⊆ m';
  cp_next : (next h ≤ next h')%positive;
  cp_fresh : ∀ l l', m' !! l = Some l' → m !! l = None →
    (next h ≤ l')%positive ∧ (l' < next h')%positive;
  cp_old : ∀ l', (l' < next h)%positive → cells h' !! l' = cells h !! l';
  cp_new : ∀ l l', m' !! l = Some l' → m !! l = None →
    ∃ o o', src !! l = Some o ∧ cells h' !! l' = Some o' ∧ obj_match m' o o';
  cp_cells : ∀ l', is_Some (cells h' !! l') → cells h !! l' = None →
    ∃ l, m' !! l = Some l' ∧ m !! l = None
}.

(** The memo is an isomorphism from the part of [src] it covers onto its
    copies in [dst]. *)
Definition iso (m : memo) (src dst : gmap loc obj) : Prop :=
  ∀ l l', m !! l = Some l' →
    ∃ o o', src !! l = Some o ∧ dst !! l' = Some o' ∧ obj_match m o o'.

(** The objects of [src] a copy has not met yet. *)
Definition todo (src : gmap loc obj) (m : memo) : nat :=
  size ((dom src : gset positive) ∖ dom m).

(** *** Reading a store *)

Definition attr (s : state) (name : string) : option val :=
  self s !! KStr name.

(** The registry, when [_subscribed_channels] is a dictionary: its address
    and its entries. *)
Definition registry (s : state) : option (loc * list (key * val)) :=
  match attr s _subscribed_channels with
  | Some (VRef l) =>
      match cells (mem s) !! l with
      | Some (ODict items) => Some (l, items)
      | _ => None
      end
  | _ => None
  end.

(** The dictionary [save] dumps in state [s]. *)
Definition to_dump (s : state) : option obj :=
  a ← attr s _subscribed_channels;
  b ← attr s _launch_embed_for_current_schedule_sent;
  c ← attr s _previous_schedule_embed_dict;
  Some (ODict [(KStr _subscribed_channels, a);
               (KStr _launch_embed_for_current_schedule_sent, b);
               (KStr _previous_schedule_embed_dict, c)]).

(** The file at [P] holds the pickle of the three fields as they are in
    [s]: the dumped dictionary over the very objects of the heap. *)
Definition persisted (P : string) (s : state) : Prop :=
  ∃ f l o, files (disk s) !! P = Some f ∧
    data f = Pickled (VRef l) (cells (mem s)) ∧
    cells (mem s) !! l = Some o ∧ to_dump s = Some o.

(** A store in working order: it knows its path, has its three fields, and
    its heap is well formed and holds the objects the fields refer to. *)
Record store_ok (P : string) (s : state) : Prop := StoreOk {
  ok_path : attr s _pickle_file_path = Some (VStr P);
  ok_dump : is_Some (to_dump s);
  ok_heap : heap_wf (mem s);
  ok_refs : ∀ k v, self s !! k = Some v → val_in (cells (mem s)) v
}.

(** The write of [save] to [P] goes through on disk [d]. *)
Definition writable (P : string) (d : fs) : Prop :=
  (P ∉ no_write d) ∧ full d = false.

(** The state once [__init__] has set the four attributes. *)
Definition blank (path : string) (h : heap) (d : fs) : state :=
  State (<[KStr _previous_schedule_embed_dict := VRef (Pos.succ (next h))]>
          (<[KStr _launch_embed_for_current_schedule_sent := VBool false]>
            (<[KStr _subscribed_channels := VRef (next h)]>
              (<[KStr _pickle_file_path := VStr path]> ∅))))
        (Heap (<[Pos.succ (next h) := ODict []]>
                 (<[next h := ODict []]> (cells h)))
              (Pos.succ (Pos.succ (next h))))
        d.

(** The state in which [save] writes: the dumped dictionary [o] has been
    allocated. *)
Definition dumped (s : state) (o : obj) : state :=
  State (self s) (alloc o (mem s)).2 (disk s).

Definition on_disk (s : state) (d : fs) : state :=
  State (self s) (mem s) d.

(** The state [add_subbed_channel] saves: the options object is allocated
    and entered in the registry at [l]. *)
Definition added (s : state) (l : loc) (items : list (key * val))
    (channel_id : Z) (nt : NotificationType) (lm : string) : state :=
  State (self s)
        (store l (ODict (items ++ [(KInt channel_id, VRef (next (mem s)))]))
           (alloc (SubscriptionOptions nt lm) (mem s)).2)
        (disk s).

(** The state [remove_subbed_channel] saves. *)
Definition removed (s : state) (l : loc) (items : list (key * val))
    (channel_id : Z) : state :=
  State (self s) (store l (ODict (del_key (KInt channel_id) items)) (mem s))
        (disk s).

(** The state [set_notification_task_vars] saves, for the copy [embed] of
    its argument made in heap [h]. *)
Definition vars_set (s : state) (sent : bool) (embed : val) (h : heap)
    : state :=
  State (<[KStr _previous_schedule_embed_dict := embed]>
          (<[KStr _launch_embed_for_current_schedule_sent := VBool sent]>
            (self s)))
        h (disk s).

Definition flag_set (s : state) (sent : bool) : state :=
  State (<[KStr _launch_embed_for_current_schedule_sent := VBool sent]>
          (self s))
        (mem s) (disk s).

(** *** Sequences of mutating calls *)

Inductive call :=
| SetVars (sent : bool) (embed : val)
| Add (channel_id : Z) (notif_type : NotificationType) (launch_mentions : string)
| Remove (channel_id : Z).

Definition exec_call (c : call) : M bool :=
  match c with
  | SetVars sent embed => set_notification_task_vars sent embed;; mret true
  | Add id nt lm => add_subbed_channel id nt lm
  | Remove id => remove_subbed_channel id
  end.

(** The calls made one after the other, whatever each returns or raises. *)
Fixpoint run (cs : list call) (s : state) : state :=
  match cs with
  | [] => s
  | c :: cs' => run cs' (exec_call c s).2
  end.

(** The same, as long as no call raises. *)
Fixpoint run_ok (cs : list call) (s : state) : option state :=
  match cs with
  | [] => Some s
  | c :: cs' =>
      match exec_call c s with
      | (Ok _, s') => run_ok cs' s'
      | (Raise _, _) => None
      end
  end.

(** The channel ids inserted and not removed since, after the calls. *)
Fixpoint subscribed (cs : list call) (ids : gset Z) : gset Z :=
  match cs with
  | [] => ids
  | Add id _ _ :: cs' => subscribed cs' ({[id]} ∪ ids)
  | Remove id :: cs' => subscribed cs' (ids ∖ {[id]})
  | SetVars _ _ :: cs' => subscribed cs' ids
  end.

(** The registry of [s] is a dictionary with one entry per id of [ids]. *)
Definition registry_is (s : state) (ids : gset Z) : Prop :=
  ∃ l items, registry s = Some (l, items) ∧ NoDup items.*1 ∧
    ∀ k, k ∈ items.*1 ↔ ∃ z, k = KInt z ∧ z ∈ ids.

(** The dictionary [save] dumps for the field values [a], [b], [c]. *)
Definition dump_of (a b c : val) : obj :=
  ODict [(KStr _subscribed_channels, a);
         (KStr _launch_embed_for_current_schedule_sent, b);
         (KStr _previous_schedule_embed_dict, c)].

(** The state [__init__] ends in when the file holds a dump: the three
    fields are set to the unpickled values. *)
Definition loaded (path : string) (h : heap) (d : fs) (a b c : val)
    (h' : heap) : state :=
  State (<[KStr _previous_schedule_embed_dict := c]>
          (<[KStr _launch_embed_for_current_schedule_sent := b]>
            (<[KStr _subscribed_channels := a]> (self (blank path h d)))))
        h' d.

(** *** What a store shows *)

(** The trees, to depth [n], of the three fields as they are inside. *)
Definition view (n : nat) (s : state)
    : option (option tree) * option (option tree) * option (option tree) :=
  (reify n (cells (mem s)) <$> attr s _subscribed_channels,
   reify n (cells (mem s)) <$> attr s _launch_embed_for_current_schedule_sent,
   reify n (cells (mem s)) <$> attr s _previous_schedule_embed_dict).

(** The trees, to depth [n], of what the two getters return: the mapping of
    [get_subbed_channels] and the pair of [get_notification_task_vars]. *)
Definition observe (n : nat) (s : state)
    : option (option tree * option tree * option tree) :=
  match get_subbed_channels s with
  | (Ok channels, s1) =>
      match get_notification_task_vars s1 with
      | (Ok (sent, embed), s2) =>
          Some (reify n (cells (mem s2)) channels,
                reify n (cells (mem s2)) sent,
                reify n (cells (mem s2)) embed)
      | (Raise _, _) => None
      end
  | (Raise _, _) => None
  end.

(** The file at [P], if there is one, is a dump written by [save]. *)
Definition own_file (P : string) (d : fs) : Prop :=
  ∀ f, files d !! P = Some f →
    ∃ l g a b c, data f = Pickled (VRef l) g ∧ closed g ∧
      g !! l = Some (dump_of a b c).

(** A store constructed now at [P], in any heap, would show what [s]
    shows. *)
Definition synced (P : string) (s : state) : Prop :=
  (∀ f, files (disk s) !! P = Some f → readable f = true) ∧
  ∀ h2, heap_wf h2 →
    ∃ s2, DataStore.new P h2 (disk s) = (Ok tt, s2) ∧ store_ok P s2 ∧
      ∀ n, view n s2 = view n s.

(** *** Files of another shape *)

(** The file content is a dump of the shape [save] writes: a dictionary
    with exactly the three fields. *)
Definition expected_shape (c : content) : bool :=
  match c with
  | Pickled (VRef l) g =>
      match g !! l with
      | Some (ODict items) =>
          bool_decide (items.*1 =
            [KStr _subscribed_channels;
             KStr _launch_embed_for_current_schedule_sent;
             KStr _previous_schedule_embed_dict])
      | _ => false
      end
  | _ => false
  end.

(** The reading of "load corruption is fatal" that includes the shape: a
    file that is unreadable or not of the expected shape makes the
    construction raise. *)
Definition load_corruption_is_fatal : Prop :=
  ∀ P h d f, files d !! P = Some f →
    readable f = false ∨ expected_shape (data f) = false →
    ∃ e s, DataStore.new P h d = (Raise e, s) ∧ e ≠ FileNotFoundError.

(** The instance dictionary after [self.__dict__.update] with [items]. *)
Definition merged (items : list (key * val)) (m : gmap key val)
    : gmap key val :=
  foldl (λ acc kv, <[kv.1 := kv.2]> acc) m items.

(** *** Checking a concrete state *)

Definition val_inb (g : gmap loc obj) (v : val) : bool :=
  match v with
  | VRef l => match g !! l with Some _ => true | None => false end
  | _ => true
  end.

Definition heap_wfb (h : heap) : bool :=
  forallb (λ lo, Pos.ltb lo.1 (next h) &&
                 forallb (val_inb (cells h)) (obj_vals lo.2))
          (map_to_list (cells h)).

Definition store_okb (P : string) (s : state) : bool :=
  bool_decide (attr s _pickle_file_path = Some (VStr P)) &&
  match to_dump s with Some _ => true | None => false end &&
  heap_wfb (mem s) &&
  forallb (λ kv, val_inb (cells (mem s)) kv.2) (map_to_list (self s)).

(** *** Example inputs *)

Definition path0 : string := "store.pkl".
Definition heap0 : heap := Heap ∅ 1.
Definition disk0 : fs := Fs ∅ ∅ false.

(** A process that holds a dictionary of its own, at address 1. *)
Definition heap1 : heap :=
  Heap {[1%positive := ODict [(KStr "title", VStr "Launch")]]} 2.

Definition calls0 : list call :=
  [Add 100 (Member 0) "@here";
   Add 100 (Member 1) "@all";
   SetVars true (VRef 1);
   Add 7 (Member 2) "";
   Remove 100].

(** The store constructed at [path0] on the empty disk, after [calls0]. *)
Definition store1 : state := run calls0 (blank path0 heap1 disk0).


(** A disk whose file at [path0] is not a pickle stream. *)
Definition disk_garbage : fs := Fs {[path0 := File Garbage true]} ∅ false.

(** A disk whose file at [path0] is the pickle of an empty dictionary. *)
Definition disk_empty_dict : fs :=
  Fs {[path0 := File (Pickled (VRef 1) {[1%positive := ODict []]}) true]}
     ∅ false.

(** The store [s] seen in heap [h]. *)
Definition in_heap (s : state) (h : heap) : state :=
  State (self s) h (disk s).

(** *** What a call may touch *)

(** From [s] to [s'] the instance and the disk are left alone. *)
Definition quiet (s s' : state) : Prop :=
  self s' = self s ∧ disk s' = disk s.

(** From [s] to [s'] the configured path is kept, and on the disk nothing
    but the file at that path may differ. *)
Definition frame (s s' : state) : Prop :=
  attr s' _pickle_file_path = attr s _pickle_file_path ∧
  no_write (disk s') = no_write (disk s) ∧
  full (disk s') = full (disk s) ∧
  ∀ Q, attr s _pickle_file_path ≠ Some (VStr Q) →
    files (disk s') !! Q = files (disk s) !! Q.

Definition same_disk (s s' : state) : Prop := disk s' = disk s.

(** A computation relates every state to the state it ends in. *)
Definition keeps {A} (R : state → state → Prop) (c : M A) : Prop :=
  ∀ s, R s (c s).2.

(** A relation that holds along every computation whose steps it admits:
    it is a preorder and admits the steps that leave instance and disk
    alone. *)
Class Kept (R : state → state → Prop) : Prop := {
  kept_refl : ∀ s, R s s;
  kept_trans : ∀ a b c, R a b → R b c → R a c;
  kept_quiet : ∀ s s', quiet s s' → R s s'
}.

(** *** The registry as a list of subscriptions *)

(** The subscriptions in insertion order: channel id, notification type
    and mentions. *)
Definition subscribed_to (id : Z)
    (m : list (Z * NotificationType * string)) : bool :=
  existsb (λ e, Z.eqb e.1.1 id) m.

Fixpoint unsubscribe (id : Z) (m : list (Z * NotificationType * string))
    : list (Z * NotificationType * string) :=
  match m with
  | [] => []
  | e :: m' => if Z.eqb e.1.1 id then m' else e :: unsubscribe id m'
  end.

Fixpoint channels_after (cs : list call)
    (m : list (Z * NotificationType * string))
    : list (Z * NotificationType * string) :=
  match cs with
  | [] => m
  | Add id nt lm :: cs' =>
      channels_after cs' (if subscribed_to id m then m else m ++ [(id, nt, lm)])
  | Remove id :: cs' => channels_after cs' (unsubscribe id m)
  | SetVars _ _ :: cs' => channels_after cs' m
  end.

(** The mapping [{id: SubscriptionOptions(nt, lm), ...}] as a tree. *)
Definition channels_tree (m : list (Z * NotificationType * string)) : tree :=
  TDict (map (λ e, (KInt e.1.1,
                    TSubscriptionOptions [TEnum e.1.2; TStr e.2])) m).

(** The registry entry [kv] is the subscription [e] in heap [g]. *)
Definition entry_is (g : gmap loc obj) (kv : key * val)
    (e : Z * NotificationType * string) : Prop :=
  kv.1 = KInt e.1.1 ∧
  ∃ lo, kv.2 = VRef lo ∧ g !! lo = Some (SubscriptionOptions e.1.2 e.2).

Definition registry_holds (s : state)
    (m : list (Z * NotificationType * string)) : Prop :=
  ∃ l items, registry s = Some (l, items) ∧
    Forall2 (entry_is (cells (mem s))) items m.

(** *** The notification variables after a sequence of calls *)

(** The arguments of the last [set_notification_task_vars] among [cs], if
    there is one after [last]. *)
Fixpoint vars_after (cs : list call) (last : option (bool * val))
    : option (bool * val) :=
  match cs with
  | [] => last
  | SetVars sent embed :: cs' => vars_after cs' (Some (sent, embed))
  | _ :: cs' => vars_after cs' last
  end.

(** The snapshot a call passes is an object of the graph [g]. *)
Definition call_in (g : gmap loc obj) (c : call) : Prop :=
  match c with
  | SetVars _ embed => val_in g embed
  | _ => True
  end.

(** The value [v] of heap [g] is what [last] says: the empty dictionary
    at the start, else what the argument denoted in the caller's heap
    [h]. *)
Definition vars_are (h : heap) (last : option (bool * val))
    (sent : bool) (g : gmap loc obj) (v : val) : Prop :=
  match last with
  | None => sent = false ∧ ∀ n, reify (S n) g v = Some (TDict [])
  | Some (b, embed) => sent = b ∧ ∀ n, reify n g v = reify n (cells h) embed
  end.

(** The store [s], constructed in heap [h], holds the variables [last]:
    the caller's objects are as they were, the registry is the dictionary
    made by [__init__], and the snapshot shares no object with it. *)
Definition vars_hold (h : heap) (s : state) (last : option (bool * val))
    : Prop :=
  cells h ⊆ cells (mem s) ∧
  attr s _subscribed_channels = Some (VRef (next h)) ∧
  ∃ sent e, attr s _launch_embed_for_current_schedule_sent
              = Some (VBool sent) ∧
    attr s _previous_schedule_embed_dict = Some e ∧
    (∀ l, reachable (cells (mem s)) e l → l ≠ next h) ∧
    vars_are h last sent (cells (mem s)) e.

(** *** Pickles that are not containers *)

Definition is_scalar (v : val) : bool :=
  match v with
  | VNone | VBool _ | VInt _ => true
  | VStr _ | VEnum _ | VRef _ => false
  end.

(** *** More example inputs *)

(** [store1] when no space is left on the disk. *)
Definition store1_full : state :=
  on_disk store1 (Fs (files (disk store1)) ∅ true).

(** A disk whose file at [path0] is the pickle of the integer 5. *)
Definition disk_int : fs :=
  Fs {[path0 := File (Pickled (VInt 5) ∅) true]} ∅ false.

(** A disk whose file at [path0] is the pickle of a dictionary that names
    another path. *)
Definition graph_redirect : gmap loc obj :=
  {[1%positive := ODict [(KStr _pickle_file_path, VStr "other.pkl")]]}.

Definition disk_redirect : fs :=
  Fs {[path0 := File (Pickled (VRef 1) graph_redirect) true]} ∅ false.

End Spec.

(** ** Facts about copies *)

Module CopyFacts.
Import Py FS Exec Spec.

Lemma val_match_mono m m' v v' :
  m ⊆ m' → val_match m v v' → val_match m' v v'.
Proof.
  intros Hm. destruct v; simpl; auto.
  intros (l' & -> & Hl). exists l'. split; [done|].
  by eapply lookup_weaken.
Qed.

Lemma obj_match_mono m m' o o' :
  m ⊆ m' → obj_match m o o' → obj_match m' o o'.
Proof.
  intros Hm (vs & -> & Hvs). exists vs. split; [done|].
  eapply Forall2_impl; [done|]. intros ??. by apply val_match_mono.
Qed.

Lemma copy_post_refl src m h : copy_post src m h m h.
Proof.
  split; try done.
  - intros l l' H1 H2. congruence.
  - intros l l' H1 H2. congruence.
  - intros l' [o Ho] Hn. congruence.
Qed.

Lemma copy_post_trans src m h m1 h1 m2 h2 :
  copy_post src m h m1 h1 → copy_post src m1 h1 m2 h2 →
  copy_post src m h m2 h2.
Proof.
  intros [A1 A2 A3 A4 A5 A6] [B1 B2 B3 B4 B5 B6]. split.
  - by etrans.
  - lia.
  - intros l l' H2 H0. destruct (m1 !! l) as [l1|] eqn:E1.
    + assert (l1 = l') as ->.
      { pose proof (lookup_weaken _ _ _ _ E1 B1). congruence. }
      destruct (A3 _ _ E1 H0). lia.
    + destruct (B3 _ _ H2 E1). lia.
  - intros l' Hl. rewrite B4 by lia. by apply A4.
  - intros l l' H2 H0. destruct (m1 !! l) as [l1|] eqn:E1.
    + assert (l1 = l') as ->.
      { pose proof (lookup_weaken _ _ _ _ E1 B1). congruence. }
      destruct (A5 _ _ E1 H0) as (o & o' & Ho & Ho' & Hm).
      destruct (A3 _ _ E1 H0) as [_ Hlt].
      exists o, o'. split_and!; [done| |by eapply obj_match_mono].
      by rewrite B4.
    + by apply B5.
  - intros l' Hs Hn. destruct (cells h1 !! l') as [o1|] eqn:E1.
    + destruct (A6 l') as (l & Hl & Hm); [by eexists|done|].
      exists l. split; [|done]. by eapply lookup_weaken.
    + destruct (B6 l' Hs E1) as (l & Hl & Hm).
      exists l. split; [done|].
      destruct (m !! l) as [x|] eqn:E; [|done].
      pose proof (lookup_weaken _ _ _ _ E A1). congruence.
Qed.

(** The traversal of a list of items inherits what holds for one item. *)
Lemma copy_list_post src cp :
  (∀ m h v v' m' h', cp m h v = Some (v', m', h') →
     copy_post src m h m' h' ∧ val_match m' v v') →
  ∀ vs m h vs' m' h', copy_list cp m h vs = Some (vs', m', h') →
     copy_post src m h m' h' ∧ Forall2 (val_match m') vs vs'.
Proof.
  intros Hcp. induction vs as [|v vs IH]; intros m h vs' m' h' H; simpl in H.
  - inversion H; subst. split; [apply copy_post_refl|constructor].
  - destruct (cp m h v) as [[[v1 m1] h1]|] eqn:E1; [|done].
    destruct (copy_list cp m1 h1 vs) as [[[vs2 m2] h2]|] eqn:E2; [|done].
    inversion H; subst.
    destruct (Hcp _ _ _ _ _ _ E1) as [P1 V1].
    destruct (IH _ _ _ _ _ E2) as [P2 V2].
    split; [by eapply copy_post_trans|].
    constructor; [|done]. eapply val_match_mono; [|done]. apply P2.
Qed.

Lemma copy_val_post src fuel :
  ∀ m h v v' m' h', copy_val fuel src m h v = Some (v', m', h') →
    copy_post src m h m' h' ∧ val_match m' v v'.
Proof.
  induction fuel as [|fuel IH]; intros m h v v' m' h' H.
  - destruct v; simpl in H; try (inversion H; subst; split;
      [apply copy_post_refl|done]).
    destruct (m !! l) as [l'|] eqn:E; [|done].
    inversion H; subst. split; [apply copy_post_refl|]. by exists l'.
  - destruct v; simpl in H; try (inversion H; subst; split;
      [apply copy_post_refl|done]).
    destruct (m !! l) as [l'|] eqn:E.
    { inversion H; subst. split; [apply copy_post_refl|]. by exists l'. }
    destruct (src !! l) as [o|] eqn:Eo; [|done].
    destruct (copy_list (copy_val fuel src) (<[l:=next h]> m) (reserve h).2
                (obj_vals o)) as [[[vs2 m2] h2]|] eqn:E2;
      simpl in E2; rewrite E2 in H; [|done].
    inversion H; subst. clear H.
    destruct (copy_list_post src _ IH _ _ _ _ _ _ E2) as [[B1 B2 B3 B4 B5 B6] V].
    simpl in *.
    assert (Hsub : m ⊆ <[l:=next h]> m) by by apply insert_subseteq.
    assert (Hl : m' !! l = Some (next h)).
    { eapply lookup_weaken; [|done]. by rewrite lookup_insert_eq. }
    split; [|by exists (next h)]. split; simpl.
    + by etrans.
    + lia.
    + intros k k' Hk Hn. destruct (decide (k = l)) as [->|Hne].
      * assert (k' = next h) as -> by congruence. lia.
      * destruct (B3 k k' Hk); [by rewrite lookup_insert_ne|lia].
    + intros k' Hk. rewrite lookup_insert_ne by lia. rewrite B4 by lia. done.
    + intros k k' Hk Hn. destruct (decide (k = l)) as [->|Hne].
      * assert (k' = next h) as -> by congruence.
        exists o, (obj_rebuild o vs2). rewrite lookup_insert_eq.
        split_and!; [done|done|]. by exists vs2.
      * assert (Hn1 : <[l:=next h]> m !! k = None)
          by by rewrite lookup_insert_ne.
        destruct (B5 k k' Hk Hn1) as (o1 & o1' & ? & ? & ?).
        destruct (B3 k k' Hk Hn1).
        exists o1, o1'. rewrite lookup_insert_ne by lia. done.
    + intros k' Hs Hn. destruct (decide (k' = next h)) as [->|Hne].
      * by exists l.
      * rewrite lookup_insert_ne in Hs by done.
        destruct (B6 k' Hs Hn) as (k & Hk & Hm).
        exists k. split; [done|].
        destruct (m !! k) as [x|] eqn:Ex; [|done].
        pose proof (lookup_weaken _ _ _ _ Ex Hsub). congruence.
Qed.

Lemma obj_vals_rebuild o vs :
  length vs = length (obj_vals o) → obj_vals (obj_rebuild o vs) = vs.
Proof.
  destruct o as [items|elems|a b]; simpl; intros Hlen.
  - rewrite length_fmap in Hlen. apply snd_zip. rewrite length_fmap. lia.
  - done.
  - destruct vs as [|x [|y [|z vs]]]; simpl in Hlen; try lia. done.
Qed.

Lemma tree_of_rebuild o vs ts :
  length vs = length (obj_vals o) → tree_of (obj_rebuild o vs) ts = tree_of o ts.
Proof.
  destruct o as [items|elems|a b]; simpl; intros Hlen.
  - rewrite length_fmap in Hlen. rewrite fst_zip; [done|].
    rewrite length_fmap. lia.
  - done.
  - destruct vs as [|x [|y [|z vs]]]; simpl in Hlen; try lia. done.
Qed.

Lemma mapM_Forall2_ext {A B C} (f : A → option C) (g : B → option C) xs ys :
  Forall2 (λ x y, f x = g y) xs ys → mapM f xs = mapM g ys.
Proof.
  induction 1 as [|x y xs ys Hxy _ IH]; [done|].
  simpl. rewrite Hxy, IH. done.
Qed.

(** Isomorphic graphs denote the same tree, at every depth. *)
Lemma iso_reify m src dst :
  iso m src dst →
  ∀ n v v', val_match m v v' → reify n src v = reify n dst v'.
Proof.
  intros Hiso. induction n as [|n IH]; intros v v' Hv;
    destruct v; simpl in Hv; subst; try done.
  - by destruct Hv as (l' & -> & _).
  - destruct Hv as (l' & -> & Hl).
    destruct (Hiso _ _ Hl) as (o & o' & Ho & Ho' & vs & -> & Hvs).
    simpl. rewrite Ho, Ho'.
    pose proof (Forall2_length _ _ _ Hvs) as Hlen.
    rewrite obj_vals_rebuild by done.
    rewrite (mapM_Forall2_ext (reify n src) (reify n dst) (obj_vals o) vs).
    + destruct (mapM (reify n dst) vs); [|done].
      by rewrite tree_of_rebuild.
    + eapply Forall2_impl; [done|]. intros ??. apply IH.
Qed.

Lemma copy_graph_spec src h v v' h' :
  copy_graph src h v = Some (v', h') →
  ∃ m, copy_post src ∅ h m h' ∧ val_match m v v'.
Proof.
  unfold copy_graph. intros H.
  destruct (copy_val (S (size src)) src ∅ h v) as [[[v1 m1] h1]|] eqn:E;
    [|done].
  inversion H; subst. exists m1. by eapply copy_val_post.
Qed.

Lemma copy_post_iso src h m h' :
  copy_post src ∅ h m h' → iso m src (cells h').
Proof.
  intros P l l' Hl. by apply (cp_new _ _ _ _ _ P).
Qed.

(** A copy denotes what its original denotes. *)
Lemma copy_graph_reify src h v v' h' n :
  copy_graph src h v = Some (v', h') →
  reify n (cells h') v' = reify n src v.
Proof.
  intros H. destruct (copy_graph_spec _ _ _ _ _ H) as (m & P & V).
  symmetry. eapply iso_reify; [by eapply copy_post_iso|done].
Qed.

Lemma copy_graph_next src h v v' h' :
  copy_graph src h v = Some (v', h') → (next h ≤ next h')%positive.
Proof.
  intros H. destruct (copy_graph_spec _ _ _ _ _ H) as (m & P & V). apply P.
Qed.

(** A copy leaves every object that existed before as it was. *)
Lemma copy_graph_old src h v v' h' :
  copy_graph src h v = Some (v', h') → heap_wf h → cells h ⊆ cells h'.
Proof.
  intros H [Hlt _]. destruct (copy_graph_spec _ _ _ _ _ H) as (m & P & V).
  apply map_subseteq_spec. intros l o Hl.
  rewrite (cp_old _ _ _ _ _ P); [done|]. apply Hlt. by eexists.
Qed.

Lemma match_elem m vs vs' v' :
  Forall2 (val_match m) vs vs' → v' ∈ vs' →
  ∀ l', v' = VRef l' → ∃ l, m !! l = Some l'.
Proof.
  intros HF Hin l' ->.
  apply list_elem_of_lookup in Hin as [i Hi].
  destruct (Forall2_lookup_r _ _ _ _ _ HF Hi) as (v & _ & Hv).
  destruct v; simpl in Hv; try done.
  destruct Hv as (l2 & [= <-] & Hl). by exists l.
Qed.

(** Every object of a copy is one of the objects the copy created. *)
Lemma copy_graph_fresh src h v v' h' l :
  copy_graph src h v = Some (v', h') → reachable (cells h') v' l →
  (next h ≤ l)%positive ∧ (l < next h')%positive.
Proof.
  intros H Hr. destruct (copy_graph_spec _ _ _ _ _ H) as (m & P & V).
  pose proof (copy_post_iso _ _ _ _ P) as Hiso.
  assert (Himg : ∃ l0, m !! l0 = Some l).
  { assert (Hv : ∀ l', v' = VRef l' → ∃ l0, m !! l0 = Some l').
    { intros l' ->. destruct v; simpl in V; try done.
      destruct V as (l2 & [= <-] & Hl). by exists l0. }
    clear V H. induction Hr as [l|l o w l2 Ho Hw _ IH].
    - by apply Hv.
    - apply IH. destruct (Hv l eq_refl) as (l0 & Hl0).
      destruct (Hiso _ _ Hl0) as (o0 & o' & _ & Ho' & vs & -> & Hvs).
      rewrite Ho in Ho'. inversion Ho'; subst.
      rewrite obj_vals_rebuild in Hw by (symmetry; by eapply Forall2_length).
      by eapply match_elem. }
  destruct Himg as (l0 & Hl0).
  apply (cp_fresh _ _ _ _ _ P l0 l Hl0). apply lookup_empty.
Qed.

(** A copy into a well-formed heap gives a well-formed heap. *)
Lemma copy_graph_wf src h v v' h' :
  copy_graph src h v = Some (v', h') → heap_wf h → heap_wf h'.
Proof.
  intros H Hwf. pose proof (copy_graph_old _ _ _ _ _ H Hwf) as Hsub.
  destruct Hwf as [Hlt Hcl].
  destruct (copy_graph_spec _ _ _ _ _ H) as (m & P & V).
  pose proof (copy_post_iso _ _ _ _ P) as Hiso.
  assert (Hnew : ∀ l', is_Some (cells h' !! l') → cells h !! l' = None →
                       ∃ l, m !! l = Some l').
  { intros l' Hs Hn. destruct (cp_cells _ _ _ _ _ P l' Hs Hn) as (l & ? & _).
    by exists l. }
  split.
  - intros l Hs. destruct (cells h !! l) as [o|] eqn:E.
    + pose proof (cp_next _ _ _ _ _ P). specialize (Hlt l).
      assert (l < next h)%positive by (apply Hlt; by eexists). lia.
    + destruct (Hnew l Hs E) as (l0 & Hl0).
      apply (cp_fresh _ _ _ _ _ P l0 l Hl0). apply lookup_empty.
  - intros l o l' Ho Hin. destruct (cells h !! l) as [o0|] eqn:E.
    + pose proof (lookup_weaken _ _ _ _ E Hsub) as E'.
      rewrite Ho in E'. inversion E'; subst.
      destruct (Hcl _ _ _ E Hin) as [o1 Ho1].
      exists o1. by eapply lookup_weaken.
    + destruct (Hnew l) as (l0 & Hl0); [by eexists|done|].
      destruct (Hiso _ _ Hl0) as (o0 & o' & _ & Ho' & vs & -> & Hvs).
      rewrite Ho in Ho'. inversion Ho'; subst.
      rewrite obj_vals_rebuild in Hin by (symmetry; by eapply Forall2_length).
      destruct (match_elem _ _ _ _ Hvs Hin l' eq_refl) as (l1 & Hl1).
      destruct (Hiso _ _ Hl1) as (? & o1 & _ & Ho1 & _). by exists o1.
Qed.

(** *** A copy of a closed graph never fails *)

Lemma todo_mono src m m' : m ⊆ m' → todo src m' ≤ todo src m.
Proof.
  intros Hm. apply subseteq_size. apply subseteq_dom in Hm. set_solver.
Qed.

Lemma todo_insert src m l l' o :
  src !! l = Some o → m !! l = None → todo src (<[l:=l']> m) < todo src m.
Proof.
  intros Ho Hm. apply subset_size. rewrite dom_insert_L.
  assert (l ∈ (dom src : gset positive)) by (apply elem_of_dom; by eexists).
  assert (l ∉ (dom m : gset positive)) by by apply not_elem_of_dom.
  set_solver.
Qed.

Lemma copy_list_total src cp fuel :
  (∀ m h v, val_in src v → todo src m < fuel → is_Some (cp m h v)) →
  (∀ m h v v' m' h', cp m h v = Some (v', m', h') → m ⊆ m') →
  ∀ vs m h, Forall (val_in src) vs → todo src m < fuel →
    is_Some (copy_list cp m h vs).
Proof.
  intros Hcp Hmono. induction vs as [|v vs IH]; intros m h Hvs Hsz; simpl.
  - by eexists.
  - inversion Hvs; subst.
    destruct (Hcp m h v) as [[[v1 m1] h1] E1]; [done..|]. rewrite E1.
    destruct (IH m1 h1) as [[[vs2 m2] h2] E2]; [done| |].
    + pose proof (todo_mono src _ _ (Hmono _ _ _ _ _ _ E1)). lia.
    + rewrite E2. by eexists.
Qed.

Lemma closed_vals src l o :
  closed src → src !! l = Some o → Forall (val_in src) (obj_vals o).
Proof.
  intros Hcl Ho. apply Forall_forall. intros v Hv l' ->. by eapply Hcl.
Qed.

Lemma copy_val_total src :
  closed src →
  ∀ fuel m h v, val_in src v → todo src m < fuel →
    is_Some (copy_val fuel src m h v).
Proof.
  intros Hcl. induction fuel as [|fuel IH]; intros m h v Hv Hsz; [lia|].
  destruct v; simpl; try by eexists.
  destruct (m !! l) as [l'|] eqn:E; [by eexists|].
  destruct (Hv l eq_refl) as [o Ho]. rewrite Ho.
  destruct (copy_list_total src (copy_val fuel src) fuel IH) with
    (vs := obj_vals o) (m := <[l:=next h]> m) (h := (reserve h).2)
    as [[[vs2 m2] h2] E2].
  - intros ?????? Hc. by apply (copy_val_post _ _ _ _ _ _ _ _ Hc).
  - by eapply closed_vals.
  - pose proof (todo_insert src m l (next h) o Ho E). lia.
  - simpl in E2. rewrite E2. by eexists.
Qed.

Lemma copy_graph_total src h v :
  closed src → val_in src v → is_Some (copy_graph src h v).
Proof.
  intros Hcl Hv. unfold copy_graph.
  destruct (copy_val_total src Hcl (S (size src)) ∅ h v) as [[[v' m'] h'] E].
  - done.
  - unfold todo. rewrite dom_empty_L, difference_empty_L, size_dom. lia.
  - rewrite E. by eexists.
Qed.

(** *** Well-formed heaps *)

Lemma reify_ext g g' n v :
  g ⊆ g' → closed g → val_in g v → reify n g' v = reify n g v.
Proof.
  intros Hsub Hcl. revert v. induction n as [|n IH]; intros v Hv;
    destruct v; simpl; try done.
  destruct (Hv l eq_refl) as [o Ho].
  rewrite Ho, (lookup_weaken _ _ _ _ Ho Hsub).
  rewrite (Forall_mapM_ext (reify n g') (reify n g)); [done|].
  eapply Forall_impl; [by eapply closed_vals|]. intros w Hw. by apply IH.
Qed.

Lemma heap_wf_fresh h : heap_wf h → cells h !! next h = None.
Proof.
  intros [Hlt _]. destruct (cells h !! next h) eqn:E; [|done].
  assert (next h < next h)%positive by (apply Hlt; by eexists). lia.
Qed.

Lemma heap_wf_alloc h o :
  heap_wf h → Forall (val_in (cells h)) (obj_vals o) →
  heap_wf (alloc o h).2 ∧ cells h ⊆ cells (alloc o h).2.
Proof.
  intros Hwf Hvs. pose proof (heap_wf_fresh h Hwf) as Hn.
  destruct Hwf as [Hlt Hcl]. simpl.
  split; [split|by apply insert_subseteq]; simpl.
  - intros l [x Hl]. destruct (decide (l = next h)) as [->|Hne]; [lia|].
    rewrite lookup_insert_ne in Hl by done.
    assert (l < next h)%positive by (apply Hlt; by eexists). lia.
  - intros l x l' Hl Hin. destruct (decide (next h = l)) as [<-|Hne].
    + rewrite lookup_insert_eq in Hl. inversion Hl; subst.
      rewrite Forall_forall in Hvs. destruct (Hvs _ Hin l' eq_refl) as [y Hy].
      exists y. eapply lookup_weaken; [done|]. by apply insert_subseteq.
    + rewrite lookup_insert_ne in Hl by done.
      destruct (Hcl _ _ _ Hl Hin) as [y Hy].
      exists y. eapply lookup_weaken; [done|]. by apply insert_subseteq.
Qed.

Lemma heap_wf_store h l o :
  heap_wf h → is_Some (cells h !! l) →
  Forall (val_in (cells h)) (obj_vals o) → heap_wf (store l o h).
Proof.
  intros [Hlt Hcl] Hl Hvs. split; simpl.
  - intros k [x Hk]. destruct (decide (l = k)) as [<-|Hne]; [by apply Hlt|].
    rewrite lookup_insert_ne in Hk by done. apply Hlt. by eexists.
  - assert (Hkeep : ∀ k, is_Some (cells h !! k) →
                         is_Some (<[l:=o]> (cells h) !! k)).
    { intros k Hk. destruct (decide (l = k)) as [<-|Hne].
      - rewrite lookup_insert_eq. by eexists.
      - by rewrite lookup_insert_ne. }
    intros k x l' Hk Hin. apply Hkeep.
    destruct (decide (l = k)) as [<-|Hne].
    + rewrite lookup_insert_eq in Hk. inversion Hk; subst.
      rewrite Forall_forall in Hvs. by apply (Hvs _ Hin).
    + rewrite lookup_insert_ne in Hk by done. by eapply Hcl.
Qed.

Lemma val_in_mono g g' v : g ⊆ g' → val_in g v → val_in g' v.
Proof.
  intros Hsub Hv l ->. destruct (Hv l eq_refl) as [o Ho].
  exists o. by eapply lookup_weaken.
Qed.

(** The result of a copy refers to an object of the new heap. *)
Lemma copy_graph_val_in src h v v' h' :
  copy_graph src h v = Some (v', h') → val_in (cells h') v'.
Proof.
  intros H l ->. destruct (copy_graph_spec _ _ _ _ _ H) as (m & P & V).
  destruct v; simpl in V; try done. destruct V as (l' & [= <-] & Hl).
  destruct (copy_post_iso _ _ _ _ P _ _ Hl) as (_ & o' & _ & Ho' & _).
  by exists o'.
Qed.

Lemma reachable_ext g g' v l :
  g ⊆ g' → closed g → val_in g v → reachable g' v l → reachable g v l.
Proof.
  intros Hsub Hcl Hv Hr. induction Hr as [l|l o w l2 Ho Hw _ IH].
  - constructor.
  - destruct (Hv l eq_refl) as [o0 Ho0].
    pose proof (lookup_weaken _ _ _ _ Ho0 Hsub) as Ho1.
    rewrite Ho in Ho1. inversion Ho1; subst.
    eapply reach_step; [done..|]. apply IH.
    pose proof (closed_vals _ _ _ Hcl Ho0) as Hall.
    rewrite Forall_forall in Hall. by apply Hall.
Qed.

End CopyFacts.

(** ** Facts about the methods *)

Module StoreFacts.
Import Py FS Exec DataStore Spec CopyFacts.

Lemma bind_ok {A B} (c : M A) (k : A → M B) s a s1 :
  c s = (Ok a, s1) → (c ≫= k) s = k a s1.
Proof. intros H. unfold mbind, M_bind, bind. by rewrite H. Qed.

Lemma bind_raise {A B} (c : M A) (k : A → M B) s e s1 :
  c s = (Raise e, s1) → (c ≫= k) s = (Raise e, s1).
Proof. intros H. unfold mbind, M_bind, bind. by rewrite H. Qed.

Lemma bind_inv {A B} (c : M A) (k : A → M B) s b s' :
  (c ≫= k) s = (Ok b, s') → ∃ a s1, c s = (Ok a, s1) ∧ k a s1 = (Ok b, s').
Proof.
  unfold mbind, M_bind, bind. destruct (c s) as [[a|e] s1]; [|done].
  intros H. by exists a, s1.
Qed.

Lemma getattr_ok name s v :
  attr s name = Some v → getattr name s = (Ok v, s).
Proof. unfold attr, getattr. by intros ->. Qed.

Lemma getattr_inv name s v s' :
  getattr name s = (Ok v, s') → s' = s ∧ attr s name = Some v.
Proof.
  unfold attr, getattr. destruct (self s !! KStr name); [|done].
  by intros [= -> ->].
Qed.

Lemma deref_ok l s o :
  cells (mem s) !! l = Some o → deref l s = (Ok o, s).
Proof. unfold deref. by intros ->. Qed.

Lemma deref_inv l s o s' :
  deref l s = (Ok o, s') → s' = s ∧ cells (mem s) !! l = Some o.
Proof.
  unfold deref. destruct (cells (mem s) !! l); [|done]. by intros [= -> ->].
Qed.

Lemma init_unfold path h d :
  new path h d =
  try_except_FileNotFoundError
    (p ← getattr _pickle_file_path; tmp ← read_pickle p; self_dict_update tmp)
    (mret tt) (blank path h d).
Proof. reflexivity. Qed.

Lemma blank_attrs path h d :
  attr (blank path h d) _pickle_file_path = Some (VStr path) ∧
  attr (blank path h d) _subscribed_channels = Some (VRef (next h)) ∧
  attr (blank path h d) _launch_embed_for_current_schedule_sent
    = Some (VBool false) ∧
  attr (blank path h d) _previous_schedule_embed_dict
    = Some (VRef (Pos.succ (next h))).
Proof. unfold attr, blank; simpl. split_and!; by simplify_map_eq. Qed.

Lemma fresh_start path h d :
  files d !! path = None → new path h d = (Ok tt, blank path h d).
Proof.
  intros Hf. rewrite init_unfold. unfold try_except_FileNotFoundError.
  destruct (blank_attrs path h d) as (Hp & _).
  rewrite (bind_ok _ _ _ _ _ (getattr_ok _ _ _ Hp)).
  erewrite bind_raise; [|simpl; rewrite Hf; reflexivity]. done.
Qed.

(** *** [save] *)

Lemma to_dump_inv s o :
  to_dump s = Some o →
  ∃ a b c, attr s _subscribed_channels = Some a ∧
    attr s _launch_embed_for_current_schedule_sent = Some b ∧
    attr s _previous_schedule_embed_dict = Some c ∧
    o = ODict [(KStr _subscribed_channels, a);
               (KStr _launch_embed_for_current_schedule_sent, b);
               (KStr _previous_schedule_embed_dict, c)].
Proof.
  unfold to_dump. intros H.
  destruct (attr s _subscribed_channels) as [a|]; [|done].
  destruct (attr s _launch_embed_for_current_schedule_sent) as [b|]; [|done].
  destruct (attr s _previous_schedule_embed_dict) as [c|]; [|done].
  simpl in H. inversion H. by exists a, b, c.
Qed.

Lemma save_unfold s P o :
  attr s _pickle_file_path = Some (VStr P) → to_dump s = Some o →
  save s = write_pickle (VStr P) (VRef (next (mem s))) (dumped s o).
Proof.
  intros Hp Ho. destruct (to_dump_inv s o Ho) as (a & b & c & Ha & Hb & Hc & ->).
  unfold save.
  rewrite (bind_ok _ _ _ _ _ (getattr_ok _ _ _ Ha)).
  rewrite (bind_ok _ _ _ _ _ (getattr_ok _ _ _ Hb)).
  rewrite (bind_ok _ _ _ _ _ (getattr_ok _ _ _ Hc)).
  erewrite bind_ok; [|reflexivity].
  erewrite bind_ok; [|apply getattr_ok; exact Hp]. done.
Qed.

Lemma save_inv s s' P :
  attr s _pickle_file_path = Some (VStr P) → save s = (Ok tt, s') →
  ∃ o, to_dump s = Some o ∧ writable P (disk s) ∧
    s' = on_disk (dumped s o)
           (write P (Pickled (VRef (next (mem s)))
                       (cells (alloc o (mem s)).2)) (disk s)).
Proof.
  intros Hp H. unfold save in H.
  apply bind_inv in H as (a & s1 & H1 & H).
  apply getattr_inv in H1 as [-> Ha].
  apply bind_inv in H as (b & s1 & H1 & H).
  apply getattr_inv in H1 as [-> Hb].
  apply bind_inv in H as (c & s1 & H1 & H).
  apply getattr_inv in H1 as [-> Hc].
  apply bind_inv in H as (r & s1 & Hr & H).
  apply bind_inv in H as (p & s2 & H1 & H).
  apply getattr_inv in H1 as [-> Hp2].
  inversion Hr; subst. clear Hr.
  unfold attr in Hp2. simpl in Hp2. unfold attr in Hp. rewrite Hp in Hp2.
  inversion Hp2; subst. simpl in H.
  eexists. split.
  { unfold to_dump. rewrite Ha, Hb, Hc. reflexivity. }
  destruct (decide (P ∈ no_write (disk s))); [done|].
  destruct (full (disk s)) eqn:Ef; [done|].
  inversion H; subst. done.
Qed.

Lemma save_ok s P o :
  attr s _pickle_file_path = Some (VStr P) → to_dump s = Some o →
  writable P (disk s) →
  save s = (Ok tt, on_disk (dumped s o)
                     (write P (Pickled (VRef (next (mem s)))
                                 (cells (alloc o (mem s)).2)) (disk s))).
Proof.
  intros Hp Ho [Hw Hf]. rewrite (save_unfold s P o Hp Ho). simpl.
  rewrite decide_False by done. by rewrite Hf.
Qed.

(** Whatever happens to the write, [save] leaves the instance as it is and
    only adds the dumped dictionary to the heap. *)
Lemma save_any s P o :
  attr s _pickle_file_path = Some (VStr P) → to_dump s = Some o →
  ∃ r d, save s = (r, on_disk (dumped s o) d) ∧
    (writable P (disk s) → r = Ok tt) ∧
    (P ∈ no_write (disk s) → r = Raise PermissionError ∧ d = disk s) ∧
    (P ∉ no_write (disk s) → full (disk s) = true → r = Raise OSError).
Proof.
  intros Hp Ho. rewrite (save_unfold s P o Hp Ho). simpl.
  destruct (decide (P ∈ no_write (disk s))) as [Hin|Hout].
  - exists (Raise PermissionError), (disk s). split; [done|].
    split_and!; [by intros [? _]|done|done].
  - destruct (full (disk s)) eqn:Ef.
    + eexists _, _. split; [reflexivity|].
      split_and!; [intros [_ ?]; congruence|done|done].
    + eexists _, _. split; [reflexivity|]. done.
Qed.

Lemma persisted_saved s P o d :
  to_dump s = Some o →
  persisted P (on_disk (dumped s o)
    (write P (Pickled (VRef (next (mem s))) (cells (alloc o (mem s)).2)) d)).
Proof.
  intros Ho. unfold persisted. simpl.
  eexists _, (next (mem s)), o. rewrite !lookup_insert_eq. done.
Qed.

Lemma store_ok_on_disk P s d : store_ok P s → store_ok P (on_disk s d).
Proof. intros [? ? ? ?]. by split. Qed.

Lemma store_ok_dumped P s o :
  store_ok P s → to_dump s = Some o → store_ok P (dumped s o).
Proof.
  intros [Hp Hd Hh Hr] Ho.
  destruct (to_dump_inv s o Ho) as (a & b & c & Ha & Hb & Hc & ->).
  destruct (heap_wf_alloc (mem s)
    (ODict [(KStr _subscribed_channels, a);
            (KStr _launch_embed_for_current_schedule_sent, b);
            (KStr _previous_schedule_embed_dict, c)]) Hh) as [Hwf Hsub].
  { simpl. repeat constructor; by eapply Hr. }
  split; try done.
  intros k v Hk. eapply val_in_mono; [done|]. by eapply Hr.
Qed.

(** *** The registry *)

Lemma registry_inv s l items :
  registry s = Some (l, items) →
  attr s _subscribed_channels = Some (VRef l) ∧
  cells (mem s) !! l = Some (ODict items).
Proof.
  unfold registry. intros H.
  destruct (attr s _subscribed_channels) as [[]|]; try done.
  destruct (cells (mem s) !! l0) as [[]|] eqn:E; try done.
  by inversion H; subst.
Qed.

Lemma registry_intro s l items :
  attr s _subscribed_channels = Some (VRef l) →
  cells (mem s) !! l = Some (ODict items) → registry s = Some (l, items).
Proof. unfold registry. by intros -> ->. Qed.

Lemma set_key_absent k v items :
  has_key k items = false → set_key k v items = items ++ [(k, v)].
Proof.
  induction items as [|[k' v'] items IH]; simpl; [done|].
  intros [Hk Hrest]%orb_false_iff. apply bool_decide_eq_false in Hk.
  simpl in Hk. rewrite decide_False by done. by rewrite IH.
Qed.


Lemma has_key_elem k items :
  has_key k items = true ↔ k ∈ items.*1.
Proof.
  unfold has_key. rewrite existsb_exists. split.
  - intros ([k' v] & Hin & Hk). apply bool_decide_eq_true in Hk.
    simpl in Hk. subst. apply list_elem_of_fmap. exists (k, v).
    split; [done|]. by apply list_elem_of_In.
  - intros ([k' v] & -> & Hin)%list_elem_of_fmap. exists (k', v).
    split; [by apply list_elem_of_In|]. by apply bool_decide_eq_true.
Qed.

Lemma has_key_not_elem k items :
  has_key k items = false ↔ k ∉ items.*1.
Proof.
  rewrite <- has_key_elem. destruct (has_key k items); split; try done.
Qed.

Lemma del_key_keys k k' items :
  NoDup items.*1 →
  k' ∈ (del_key k items).*1 ↔ k' ∈ items.*1 ∧ k' ≠ k.
Proof.
  induction items as [|[k0 v0] items IH]; simpl; intros Hnd.
  - split; [by intros ?%elem_of_nil|by intros [?%elem_of_nil _]].
  - apply NoDup_cons in Hnd as [Hn Hnd].
    destruct (decide (k0 = k)) as [->|Hne].
    + rewrite elem_of_cons. split.
      * intros Hin. split; [by right|]. by intros ->.
      * intros [[->|Hin] Hk]; done.
    + simpl. rewrite !elem_of_cons, IH by done. naive_solver.
Qed.

Lemma del_key_NoDup k items : NoDup items.*1 → NoDup (del_key k items).*1.
Proof.
  induction items as [|[k0 v0] items IH]; simpl; intros Hnd; [done|].
  apply NoDup_cons in Hnd as [Hn Hnd].
  destruct (decide (k0 = k)); [done|]. simpl. apply NoDup_cons. split.
  - rewrite del_key_keys by done. by intros [? _].
  - by apply IH.
Qed.

Lemma del_key_length k items :
  has_key k items = true → S (length (del_key k items)) = length items.
Proof.
  induction items as [|[k0 v0] items IH]; simpl; [done|].
  destruct (decide (k0 = k)) as [->|Hne]; [done|].
  rewrite bool_decide_eq_false_2 by done. simpl. intros H. by rewrite IH.
Qed.

Lemma del_key_vals k items v :
  v ∈ (del_key k items).*2 → v ∈ items.*2.
Proof.
  induction items as [|[k0 v0] items IH]; simpl; [done|].
  destruct (decide (k0 = k)); simpl; rewrite ?elem_of_cons; naive_solver.
Qed.

Lemma val_in_store h l o v :
  is_Some (cells h !! l) → val_in (cells h) v → val_in (cells (store l o h)) v.
Proof.
  intros Hl Hv k ->. simpl. destruct (decide (l = k)) as [<-|Hne].
  - rewrite lookup_insert_eq. by eexists.
  - rewrite lookup_insert_ne by done. by apply Hv.
Qed.

(** *** [add_subbed_channel] and [remove_subbed_channel] *)

Lemma add_present s l items id nt lm :
  registry s = Some (l, items) → has_key (KInt id) items = true →
  add_subbed_channel id nt lm s = (Ok false, s).
Proof.
  intros [Ha Hl]%registry_inv Hk. unfold add_subbed_channel.
  rewrite (bind_ok _ _ _ _ _ (getattr_ok _ _ _ Ha)).
  erewrite bind_ok; [|simpl; erewrite bind_ok; [|by apply deref_ok]; done].
  by rewrite Hk.
Qed.

Lemma add_absent s l items id nt lm :
  heap_wf (mem s) →
  registry s = Some (l, items) → has_key (KInt id) items = false →
  add_subbed_channel id nt lm s
  = (save;; mret true) (added s l items id nt lm).
Proof.
  intros Hwf [Ha Hl]%registry_inv Hk. unfold add_subbed_channel.
  rewrite (bind_ok _ _ _ _ _ (getattr_ok _ _ _ Ha)).
  erewrite bind_ok; [|simpl; erewrite bind_ok; [|by apply deref_ok]; done].
  rewrite Hk. simpl.
  erewrite bind_ok; [|reflexivity].
  erewrite bind_ok; [|apply getattr_ok; exact Ha].
  assert (l ≠ next (mem s)).
  { intros ->. by rewrite heap_wf_fresh in Hl. }
  erewrite bind_ok; [done|]. simpl.
  erewrite bind_ok;
    [|apply deref_ok; simpl; rewrite lookup_insert_ne by done; exact Hl].
  simpl. by rewrite set_key_absent.
Qed.

Lemma added_ok P s l items id nt lm :
  store_ok P s → registry s = Some (l, items) →
  store_ok P (added s l items id nt lm) ∧
  registry (added s l items id nt lm)
  = Some (l, items ++ [(KInt id, VRef (next (mem s)))]).
Proof.
  intros [Hp Hd Hh Hr] [Ha Hl]%registry_inv.
  destruct (heap_wf_alloc (mem s) (SubscriptionOptions nt lm) Hh)
    as [Hwf Hsub].
  { simpl. by repeat constructor. }
  assert (Hl' : cells (alloc (SubscriptionOptions nt lm) (mem s)).2 !! l
                = Some (ODict items)) by by eapply lookup_weaken.
  split.
  - split; try done; unfold added; cbn [mem self].
    + apply heap_wf_store; [done|by eexists|]. simpl.
      rewrite fmap_app. apply Forall_app. split.
      * eapply Forall_impl;
          [exact (closed_vals _ _ _ (proj2 Hh) Hl)|].
        simpl. intros v Hv. by eapply val_in_mono.
      * repeat constructor. intros k [= <-]. simpl.
        rewrite lookup_insert_eq. by eexists.
    + intros k v Hk. apply val_in_store; [by eexists|].
      eapply val_in_mono; [done|]. by eapply Hr.
  - apply registry_intro; [done|]. simpl. by rewrite lookup_insert_eq.
Qed.

Lemma remove_absent s l items id :
  registry s = Some (l, items) → has_key (KInt id) items = false →
  remove_subbed_channel id s = (Ok false, s).
Proof.
  intros [Ha Hl]%registry_inv Hk. unfold remove_subbed_channel.
  rewrite (bind_ok _ _ _ _ _ (getattr_ok _ _ _ Ha)).
  erewrite bind_ok; [|simpl; erewrite bind_ok; [|by apply deref_ok]; done].
  by rewrite Hk.
Qed.

Lemma remove_present s l items id :
  registry s = Some (l, items) → has_key (KInt id) items = true →
  remove_subbed_channel id s = (save;; mret true) (removed s l items id).
Proof.
  intros [Ha Hl]%registry_inv Hk. unfold remove_subbed_channel.
  rewrite (bind_ok _ _ _ _ _ (getattr_ok _ _ _ Ha)).
  erewrite bind_ok; [|simpl; erewrite bind_ok; [|by apply deref_ok]; done].
  rewrite Hk.
  erewrite bind_ok; [|apply getattr_ok; exact Ha].
  erewrite bind_ok; [done|]. simpl.
  erewrite bind_ok; [|by apply deref_ok]. simpl. by rewrite Hk.
Qed.

Lemma removed_ok P s l items id :
  store_ok P s → registry s = Some (l, items) →
  store_ok P (removed s l items id) ∧
  registry (removed s l items id) = Some (l, del_key (KInt id) items).
Proof.
  intros [Hp Hd Hh Hr] [Ha Hl]%registry_inv. split.
  - split; try done; unfold removed; cbn [mem self].
    + apply heap_wf_store; [done|by eexists|]. simpl.
      apply Forall_forall. intros v Hv%del_key_vals.
      pose proof (closed_vals _ _ _ (proj2 Hh) Hl) as Hall.
      rewrite Forall_forall in Hall. by apply Hall.
    + intros k v Hk. apply val_in_store; [by eexists|]. by eapply Hr.
  - apply registry_intro; [done|]. simpl. by rewrite lookup_insert_eq.
Qed.


(** Saving after a change of the heap: the objects that were there stay. *)
Lemma dumped_lookup s o l :
  heap_wf (mem s) → is_Some (cells (mem s) !! l) →
  cells (mem (dumped s o)) !! l = cells (mem s) !! l.
Proof.
  intros Hwf Hl. simpl. apply lookup_insert_ne. intros <-.
  rewrite heap_wf_fresh in Hl by done. by destruct Hl.
Qed.

Lemma registry_dumped s o d l items :
  heap_wf (mem s) → registry s = Some (l, items) →
  registry (on_disk (dumped s o) d) = Some (l, items).
Proof.
  intros Hwf [Ha Hl]%registry_inv. apply registry_intro; [done|].
  change (cells (mem (dumped s o)) !! l = Some (ODict items)).
  rewrite dumped_lookup; [done..|by eexists].
Qed.


Lemma save_then_true_inv s r s' :
  (save;; mret true) s = (Ok r, s') → save s = (Ok tt, s').
Proof.
  intros H. apply bind_inv in H as ([] & s1 & H1 & H). by inversion H; subst.
Qed.

(** *** [set_notification_task_vars] *)

Lemma to_dump_intro s a b c :
  attr s _subscribed_channels = Some a →
  attr s _launch_embed_for_current_schedule_sent = Some b →
  attr s _previous_schedule_embed_dict = Some c →
  to_dump s = Some (ODict [(KStr _subscribed_channels, a);
                           (KStr _launch_embed_for_current_schedule_sent, b);
                           (KStr _previous_schedule_embed_dict, c)]).
Proof. unfold to_dump. by intros -> -> ->. Qed.

Lemma attr_insert_eq m h d n v :
  attr (State (<[KStr n := v]> m) h d) n = Some v.
Proof. unfold attr. simpl. apply lookup_insert_eq. Qed.

Lemma attr_insert_ne m h d n n' v :
  n' ≠ n → attr (State (<[KStr n' := v]> m) h d) n = m !! KStr n.
Proof.
  intros Hne. unfold attr. simpl. apply lookup_insert_ne. congruence.
Qed.

Lemma set_unfold s sent embed :
  set_notification_task_vars sent embed s =
  match copy_graph (cells (mem s)) (mem s) embed with
  | Some (embed', h') => save (vars_set s sent embed' h')
  | None => (Raise MemoryFault, flag_set s sent)
  end.
Proof.
  unfold set_notification_task_vars, mbind, M_bind, bind, deepcopy. simpl.
  destruct (copy_graph (cells (mem s)) (mem s) embed) as [[embed' h']|]; done.
Qed.

Lemma store_ok_flag P s sent : store_ok P s → store_ok P (flag_set s sent).
Proof.
  intros [Hp Hd Hh Hr]. destruct Hd as [o Ho].
  destruct (to_dump_inv s o Ho) as (a & b & c & Ha & Hb & Hc & _).
  unfold flag_set. split; cbn [mem self].
  - by rewrite attr_insert_ne.
  - eexists. apply to_dump_intro.
    + by rewrite attr_insert_ne.
    + by rewrite attr_insert_eq.
    + by rewrite attr_insert_ne.
  - done.
  - intros k v Hk. destruct (decide
      (KStr _launch_embed_for_current_schedule_sent = k)) as [<-|Hne].
    + rewrite lookup_insert_eq in Hk. by inversion Hk; subst.
    + rewrite lookup_insert_ne in Hk by done. by eapply Hr.
Qed.

Lemma store_ok_vars P s sent embed embed' h' :
  store_ok P s →
  copy_graph (cells (mem s)) (mem s) embed = Some (embed', h') →
  store_ok P (vars_set s sent embed' h').
Proof.
  intros [Hp Hd Hh Hr] Hc. destruct Hd as [o Ho].
  destruct (to_dump_inv s o Ho) as (a & b & c & Ha & Hb & Hc' & _).
  unfold vars_set. split; cbn [mem self].
  - rewrite attr_insert_ne by done.
    rewrite lookup_insert_ne by done. exact Hp.
  - eexists. apply to_dump_intro.
    + rewrite attr_insert_ne by done.
      rewrite lookup_insert_ne by done. exact Ha.
    + rewrite attr_insert_ne by done. apply lookup_insert_eq.
    + by rewrite attr_insert_eq.
  - by eapply copy_graph_wf.
  - intros k v Hk. destruct (decide
      (KStr _previous_schedule_embed_dict = k)) as [<-|Hne].
    { rewrite lookup_insert_eq in Hk. inversion Hk; subst.
      by eapply copy_graph_val_in. }
    rewrite lookup_insert_ne in Hk by done.
    destruct (decide
      (KStr _launch_embed_for_current_schedule_sent = k)) as [<-|Hne2].
    { rewrite lookup_insert_eq in Hk. by inversion Hk; subst. }
    rewrite lookup_insert_ne in Hk by done.
    eapply val_in_mono; [by eapply copy_graph_old|]. by eapply Hr.
Qed.

Lemma attr_vars_set s sent embed h n :
  n ≠ _previous_schedule_embed_dict →
  n ≠ _launch_embed_for_current_schedule_sent →
  attr (vars_set s sent embed h) n = attr s n.
Proof.
  intros H1 H2. unfold vars_set. rewrite attr_insert_ne by done.
  apply lookup_insert_ne. congruence.
Qed.

Lemma py_contains_inv i c s b s' :
  py_contains i c s = (Ok b, s') → s' = s.
Proof.
  destruct c; try done. simpl. intros H.
  apply bind_inv in H as (o & s1 & H1 & H).
  apply deref_inv in H1 as [-> _]. destruct o; by inversion H.
Qed.

Lemma py_setitem_frame c i v s r s' :
  py_setitem c i v s = (Ok r, s') → self s' = self s ∧ disk s' = disk s.
Proof.
  destruct c; try done. simpl. intros H.
  apply bind_inv in H as (o & s1 & H1 & H).
  apply deref_inv in H1 as [-> _]. destruct o; try done.
  - by inversion H.
  - destruct (list_index i (length elems)); [|done]. by inversion H.
Qed.

Lemma py_delitem_frame c i s r s' :
  py_delitem c i s = (Ok r, s') → self s' = self s ∧ disk s' = disk s.
Proof.
  destruct c; try done. simpl. intros H.
  apply bind_inv in H as (o & s1 & H1 & H).
  apply deref_inv in H1 as [-> _]. destruct o; try done.
  - destruct (has_key (KInt i) items); [|done]. by inversion H.
  - destruct (list_index i (length elems)); [|done]. by inversion H.
Qed.

(** A successful [save] has written the state it returns in. *)
Lemma save_persisted P s s' :
  attr s _pickle_file_path = Some (VStr P) → save s = (Ok tt, s') →
  writable P (disk s) ∧ persisted P s'.
Proof.
  intros Hp H. destruct (save_inv s s' P Hp H) as (o & Ho & Hw & ->).
  split; [done|]. by apply persisted_saved.
Qed.

(** *** The store after [__init__] and after any call *)

Lemma store_ok_blank P h d : heap_wf h → store_ok P (blank P h d).
Proof.
  intros Hwf.
  destruct (heap_wf_alloc h (ODict []) Hwf) as [Hwf1 Hsub1];
    [by constructor|].
  destruct (heap_wf_alloc _ (ODict []) Hwf1) as [Hwf2 Hsub2];
    [by constructor|].
  destruct (blank_attrs P h d) as (Hp & Hc & Hs & He).
  split.
  - done.
  - eexists. by apply to_dump_intro.
  - exact Hwf2.
  - intros k v Hk. unfold blank in Hk. cbn [self] in Hk.
    repeat (apply lookup_insert_Some in Hk as [[_ <-]|[_ Hk]];
            [intros l [= <-]|]); try done.
    + simpl. rewrite lookup_insert_eq. by eexists.
    + simpl. rewrite lookup_insert_ne by lia. rewrite lookup_insert_eq.
      by eexists.
Qed.

Lemma registry_blank P h d : registry (blank P h d) = Some (next h, []).
Proof.
  destruct (blank_attrs P h d) as (_ & Hc & _).
  apply registry_intro; [done|]. simpl.
  rewrite lookup_insert_ne by lia. by rewrite lookup_insert_eq.
Qed.

Lemma seq_state {A B} (c : M A) (b : B) s : ((c;; mret b) s).2 = (c s).2.
Proof. unfold mbind, M_bind, bind. by destruct (c s) as [[a|e] s1]. Qed.

Lemma save_state P s :
  store_ok P s → ∃ o d, to_dump s = Some o ∧ (save s).2 = on_disk (dumped s o) d.
Proof.
  intros Hok. destruct (ok_dump _ _ Hok) as [o Ho].
  destruct (save_any _ P o (ok_path _ _ Hok) Ho) as (r & d & Hs & _).
  exists o, d. by rewrite Hs.
Qed.

Lemma registry_is_saved s o d ids :
  heap_wf (mem s) → registry_is s ids → registry_is (on_disk (dumped s o) d) ids.
Proof.
  intros Hwf (l & items & Hreg & Hnd & Hk). exists l, items.
  split; [by apply registry_dumped|done].
Qed.

Lemma registry_vars_set s sent embed embed' h' l items :
  heap_wf (mem s) →
  copy_graph (cells (mem s)) (mem s) embed = Some (embed', h') →
  registry s = Some (l, items) →
  registry (vars_set s sent embed' h') = Some (l, items).
Proof.
  intros Hwf Hc [Ha Hl]%registry_inv. apply registry_intro.
  - by rewrite attr_vars_set.
  - eapply lookup_weaken; [done|]. by eapply copy_graph_old.
Qed.

Lemma exec_call_inv P s c ids :
  store_ok P s → registry_is s ids →
  store_ok P (exec_call c s).2 ∧
  registry_is (exec_call c s).2 (subscribed [c] ids).
Proof.
  intros Hok (l & items & Hreg & Hnd & Hkeys).
  destruct c as [sent embed|id nt lm|id]; simpl.
  - rewrite seq_state, set_unfold.
    destruct (copy_graph (cells (mem s)) (mem s) embed) as [[e' h']|] eqn:Hc.
    + pose proof (store_ok_vars P s sent embed e' h' Hok Hc) as Hok1.
      destruct (save_state P _ Hok1) as (o & d & Ho & ->).
      split; [by apply store_ok_on_disk, store_ok_dumped|].
      apply registry_is_saved; [apply Hok1|].
      exists l, items. split; [|done].
      eapply registry_vars_set; [apply Hok|done..].
    + simpl. split; [by apply store_ok_flag|].
      exists l, items. split; [|done].
      destruct (registry_inv _ _ _ Hreg) as [Ha Hl].
      apply registry_intro; [|done].
      unfold flag_set. by rewrite attr_insert_ne.
  - destruct (has_key (KInt id) items) eqn:Hk.
    + rewrite (add_present s l items) by done. simpl.
      split; [done|]. exists l, items. split_and!; [done..|].
      intros k. rewrite Hkeys. apply has_key_elem, Hkeys in Hk.
      destruct Hk as (z & [= <-] & Hz). split.
      * intros (z' & -> & Hz'). exists z'. split; [done|set_solver].
      * intros (z' & -> & [->%elem_of_singleton|Hz']%elem_of_union);
          by eexists.
    + rewrite (add_absent s l items) by (done || apply Hok).
      rewrite seq_state.
      destruct (added_ok P s l items id nt lm Hok Hreg) as [Hok1 Hreg1].
      destruct (save_state P _ Hok1) as (o & d & Ho & ->).
      split; [by apply store_ok_on_disk, store_ok_dumped|].
      apply registry_is_saved; [apply Hok1|].
      eexists _, _. split; [exact Hreg1|].
      apply has_key_not_elem in Hk. rewrite fmap_app. simpl. split.
      * apply NoDup_app. split_and!; [done| |apply NoDup_singleton].
        intros k Hin ->%list_elem_of_singleton. done.
      * intros k. rewrite elem_of_app, list_elem_of_singleton, Hkeys.
        split.
        -- intros [(z & -> & Hz)| ->]; eexists; (split; [done|set_solver]).
        -- intros (z & -> & [->%elem_of_singleton|Hz]%elem_of_union);
             [by right|left; by eexists].
  - destruct (has_key (KInt id) items) eqn:Hk.
    + rewrite (remove_present s l items) by done. rewrite seq_state.
      destruct (removed_ok P s l items id Hok Hreg) as [Hok1 Hreg1].
      destruct (save_state P _ Hok1) as (o & d & Ho & ->).
      split; [by apply store_ok_on_disk, store_ok_dumped|].
      apply registry_is_saved; [apply Hok1|].
      eexists _, _. split; [exact Hreg1|].
      split; [by apply del_key_NoDup|].
      intros k. rewrite del_key_keys, Hkeys by done. split.
      * intros [(z & -> & Hz) Hne]. exists z. split; [done|].
        apply elem_of_difference. split; [done|].
        intros ->%elem_of_singleton. done.
      * intros (z & -> & [Hz Hne]%elem_of_difference).
        split; [by eexists|]. intros [= ->]. apply Hne.
        by apply elem_of_singleton.
    + rewrite (remove_absent s l items) by done. simpl.
      split; [done|]. exists l, items. split_and!; [done..|].
      intros k. rewrite Hkeys. apply has_key_not_elem in Hk. split.
      * intros (z & -> & Hz). exists z. split; [done|].
        apply elem_of_difference. split; [done|].
        intros ->%elem_of_singleton. apply Hk, Hkeys. by eexists.
      * intros (z & -> & [Hz _]%elem_of_difference). by eexists.
Qed.

Lemma run_inv P cs :
  ∀ s ids, store_ok P s → registry_is s ids →
    store_ok P (run cs s) ∧ registry_is (run cs s) (subscribed cs ids).
Proof.
  induction cs as [|c cs IH]; intros s ids Hok Hreg; [done|].
  destruct (exec_call_inv P s c ids Hok Hreg) as [Hok1 Hreg1].
  simpl. destruct c; by apply IH.
Qed.

Lemma registry_is_count s ids :
  registry_is s ids →
  subbed_channels_count s = (Ok (Z.of_nat (size ids)), s).
Proof.
  intros (l & items & [Ha Hl]%registry_inv & Hnd & Hkeys).
  unfold subbed_channels_count.
  rewrite (bind_ok _ _ _ _ _ (getattr_ok _ _ _ Ha)). simpl.
  rewrite (bind_ok _ _ _ _ _ (deref_ok _ _ _ Hl)). simpl.
  assert (Hperm : items.*1 ≡ₚ KInt <$> elements ids).
  { apply NoDup_Permutation; [done| |].
    - apply NoDup_fmap_2; [by intros ?? [=]|apply NoDup_elements].
    - intros k. rewrite Hkeys, list_elem_of_fmap.
      split; intros (z & -> & Hz); exists z; (split; [done|]);
        by apply elem_of_elements. }
  apply Permutation_length in Hperm. rewrite !length_fmap in Hperm.
  unfold mret, M_ret, ret. by rewrite Hperm.
Qed.

(** *** Loading a dump *)

Lemma match3 m a b c vs :
  Forall2 (val_match m) [a; b; c] vs →
  ∃ a' b' c', vs = [a'; b'; c'] ∧
    val_match m a a' ∧ val_match m b b' ∧ val_match m c c'.
Proof.
  intros H. inversion H as [|? a' ? vs1 Ha H1]; subst.
  inversion H1 as [|? b' ? vs2 Hb H2]; subst.
  inversion H2 as [|? c' ? vs3 Hc H3]; subst.
  inversion H3; subst. by exists a', b', c'.
Qed.

Lemma load_dump P h d f l g a b c :
  files d !! P = Some f → readable f = true →
  data f = Pickled (VRef l) g → closed g → g !! l = Some (dump_of a b c) →
  ∃ a' b' c' h' m,
    new P h d = (Ok tt, loaded P h d a' b' c' h') ∧
    (∃ l', copy_graph g (mem (blank P h d)) (VRef l) = Some (VRef l', h')) ∧
    iso m g (cells h') ∧
    val_match m a a' ∧ val_match m b b' ∧ val_match m c c'.
Proof.
  intros Hf Hr Hd Hcl Hl.
  destruct (copy_graph_total g (mem (blank P h d)) (VRef l) Hcl)
    as [[v' h'] Hc].
  { intros ? [= <-]. by eexists. }
  destruct (copy_graph_spec _ _ _ _ _ Hc) as (m & Hpost & Hv).
  pose proof (copy_post_iso _ _ _ _ Hpost) as Hiso.
  destruct Hv as (l' & -> & Hm).
  destruct (Hiso _ _ Hm) as (o & o' & Ho & Ho' & vs & -> & Hvs).
  rewrite Hl in Ho. inversion Ho; subst. clear Ho.
  destruct (match3 _ _ _ _ _ Hvs) as (a' & b' & c' & -> & Ha & Hb & Hc').
  exists a', b', c', h', m. split_and!; try done; [|by exists l'].
  rewrite init_unfold. unfold try_except_FileNotFoundError.
  destruct (blank_attrs P h d) as (Hp & _).
  rewrite (bind_ok _ _ _ _ _ (getattr_ok _ _ _ Hp)).
  erewrite bind_ok; [|simpl; rewrite Hf, Hr, Hd; simpl in Hc; rewrite Hc;
                      reflexivity].
  simpl. erewrite bind_ok; [|apply deref_ok; exact Ho']. done.
Qed.

Lemma loaded_attrs P h d a b c h' :
  attr (loaded P h d a b c h') _pickle_file_path = Some (VStr P) ∧
  attr (loaded P h d a b c h') _subscribed_channels = Some a ∧
  attr (loaded P h d a b c h') _launch_embed_for_current_schedule_sent
    = Some b ∧
  attr (loaded P h d a b c h') _previous_schedule_embed_dict = Some c.
Proof. unfold attr, loaded, blank; simpl. split_and!; by simplify_map_eq. Qed.

Lemma val_match_in m g g' v v' :
  iso m g g' → val_match m v v' → val_in g' v'.
Proof.
  intros Hiso Hv l ->. destruct v; simpl in Hv; try done.
  destruct Hv as (l' & [= <-] & Hm).
  destruct (Hiso _ _ Hm) as (_ & o' & _ & Ho' & _). by exists o'.
Qed.

Lemma store_ok_loaded P h d a b c h' g m a0 b0 c0 l l' :
  heap_wf h →
  copy_graph g (mem (blank P h d)) (VRef l) = Some (VRef l', h') →
  iso m g (cells h') →
  val_match m a0 a → val_match m b0 b → val_match m c0 c →
  store_ok P (loaded P h d a b c h').
Proof.
  intros Hwf Hc Hiso Ha Hb Hc'.
  destruct (loaded_attrs P h d a b c h') as (Hp & Hsc & Hfl & Hsn).
  pose proof (store_ok_blank P h d Hwf) as Hok0.
  split.
  - done.
  - eexists. by apply to_dump_intro.
  - eapply copy_graph_wf; [done|]. apply Hok0.
  - intros k v Hk. unfold loaded in Hk. cbn [self] in Hk.
    apply lookup_insert_Some in Hk as [[_ <-]|[_ Hk]];
      [by eapply val_match_in|].
    apply lookup_insert_Some in Hk as [[_ <-]|[_ Hk]];
      [by eapply val_match_in|].
    apply lookup_insert_Some in Hk as [[_ <-]|[_ Hk]];
      [by eapply val_match_in|].
    eapply val_in_mono; [eapply copy_graph_old; [done|apply Hok0]|].
    by eapply (ok_refs _ _ Hok0).
Qed.

(** *** The getters *)

Lemma get_subbed_channels_run s c :
  attr s _subscribed_channels = Some c →
  get_subbed_channels s =
  match copy_graph (cells (mem s)) (mem s) c with
  | Some (r, h) => (Ok r, in_heap s h)
  | None => (Raise MemoryFault, s)
  end.
Proof.
  intros Hc. unfold get_subbed_channels.
  rewrite (bind_ok _ _ _ _ _ (getattr_ok _ _ _ Hc)). unfold deepcopy.
  by destruct (copy_graph (cells (mem s)) (mem s) c) as [[r h]|].
Qed.

Lemma get_notification_task_vars_run s b e :
  attr s _launch_embed_for_current_schedule_sent = Some b →
  attr s _previous_schedule_embed_dict = Some e →
  get_notification_task_vars s =
  match copy_graph (cells (mem s)) (mem s) e with
  | Some (r, h) => (Ok (b, r), in_heap s h)
  | None => (Raise MemoryFault, s)
  end.
Proof.
  intros Hb He. unfold get_notification_task_vars.
  rewrite (bind_ok _ _ _ _ _ (getattr_ok _ _ _ Hb)).
  rewrite (bind_ok _ _ _ _ _ (getattr_ok _ _ _ He)).
  unfold mbind, M_bind, bind, deepcopy.
  by destruct (copy_graph (cells (mem s)) (mem s) e) as [[r h]|].
Qed.

Lemma store_ok_in_heap P s h :
  store_ok P s → heap_wf h → cells (mem s) ⊆ cells h →
  store_ok P (in_heap s h).
Proof.
  intros [Hp Hd Hh Hr] Hwf Hsub. split; try done.
  intros k v Hk. eapply val_in_mono; [done|]. by eapply Hr.
Qed.

(** What a deep copy of a value of a well-formed heap is. *)
Lemma deep_copy_facts h v :
  heap_wf h → val_in (cells h) v →
  ∃ r h', copy_graph (cells h) h v = Some (r, h') ∧
    heap_wf h' ∧ cells h ⊆ cells h' ∧
    (∀ n, reify n (cells h') r = reify n (cells h) v) ∧
    (∀ l, reachable (cells h') r l →
       cells h !! l = None ∧ is_Some (cells h' !! l)).
Proof.
  intros Hwf Hv.
  destruct (copy_graph_total (cells h) h v) as [[r h'] Hc];
    [apply Hwf|done|].
  exists r, h'. split_and!; [done|by eapply copy_graph_wf|
    by eapply copy_graph_old|intros n; by eapply copy_graph_reify|].
  intros l Hr.
  destruct (copy_graph_fresh _ _ _ _ _ _ Hc Hr) as [Hge Hlt]. split.
  - destruct (cells h !! l) eqn:E; [|done].
    assert (l < next h)%positive by (apply Hwf; by eexists). lia.
  - pose proof (copy_graph_val_in _ _ _ _ _ Hc) as Hin.
    pose proof (copy_graph_wf _ _ _ _ _ Hc Hwf) as [_ Hcl].
    clear Hge Hlt Hc. revert Hin.
    induction Hr as [l|l o w l2 Ho Hw _ IH]; intros Hin.
    + by apply Hin.
    + apply IH. intros k ->. by eapply Hcl.
Qed.

(** *** Stores and their files *)


Lemma new_unreadable P h d f :
  files d !! P = Some f → readable f = false →
  new P h d = (Raise PermissionError, blank P h d).
Proof.
  intros Hf Hr. rewrite init_unfold. unfold try_except_FileNotFoundError.
  destruct (blank_attrs P h d) as (Hp & _).
  rewrite (bind_ok _ _ _ _ _ (getattr_ok _ _ _ Hp)).
  erewrite bind_raise; [|simpl; rewrite Hf, Hr; reflexivity]. done.
Qed.

Lemma view_blank n P h d :
  view n (blank P h d)
  = (Some (reify n {[1%positive := ODict []]} (VRef 1)),
     Some (Some (TBool false)),
     Some (reify n {[1%positive := ODict []]} (VRef 1))).
Proof.
  destruct (blank_attrs P h d) as (_ & Hc & Hs & He).
  unfold view. rewrite Hc, Hs, He. simpl.
  destruct n as [|n]; simpl; [done|].
  rewrite lookup_insert_eq, lookup_singleton_eq.
  rewrite lookup_insert_ne by lia. by rewrite lookup_insert_eq.
Qed.

Lemma view_loaded n P h d a b c h' :
  view n (loaded P h d a b c h')
  = (Some (reify n (cells h') a), Some (reify n (cells h') b),
     Some (reify n (cells h') c)).
Proof.
  destruct (loaded_attrs P h d a b c h') as (_ & Hc & Hs & He).
  unfold view. by rewrite Hc, Hs, He.
Qed.

Lemma init_synced P h d s0 :
  heap_wf h → own_file P d → new P h d = (Ok tt, s0) →
  store_ok P s0 ∧ synced P s0.
Proof.
  intros Hwf Hown Hnew. destruct (files d !! P) as [f|] eqn:Hf.
  - destruct (readable f) eqn:Hr;
      [|by rewrite (new_unreadable P h d f) in Hnew].
    destruct (Hown f Hf) as (l & g & a & b & c & Hd & Hcl & Hl).
    destruct (load_dump P h d f l g a b c Hf Hr Hd Hcl Hl)
      as (a' & b' & c' & h' & m & Hnew' & [l' Hc] & Hiso & Ha & Hb & Hc').
    rewrite Hnew' in Hnew. inversion Hnew; subst. clear Hnew.
    split; [by eapply store_ok_loaded|]. split.
    { simpl. intros f' Hf'. congruence. }
    intros h2 Hwf2. simpl.
    destruct (load_dump P h2 d f l g a b c Hf Hr Hd Hcl Hl)
      as (a2 & b2 & c2 & h2' & m2 & Hnew2 & [l2 Hc2] & Hiso2 & Ha2 & Hb2 & Hc2').
    eexists. split; [exact Hnew2|]. split; [by eapply store_ok_loaded|].
    intros n. rewrite !view_loaded.
    rewrite <- (iso_reify m g (cells h') Hiso n a a' Ha).
    rewrite <- (iso_reify m g (cells h') Hiso n b b' Hb).
    rewrite <- (iso_reify m g (cells h') Hiso n c c' Hc').
    rewrite <- (iso_reify m2 g (cells h2') Hiso2 n a a2 Ha2).
    rewrite <- (iso_reify m2 g (cells h2') Hiso2 n b b2 Hb2).
    by rewrite <- (iso_reify m2 g (cells h2') Hiso2 n c c2 Hc2').
  - rewrite (fresh_start P h d Hf) in Hnew. inversion Hnew; subst.
    split; [by apply store_ok_blank|]. split.
    { simpl. intros f' Hf'. congruence. }
    intros h2 Hwf2. simpl. exists (blank P h2 d).
    split; [by apply fresh_start|]. split; [by apply store_ok_blank|].
    intros n. by rewrite !view_blank.
Qed.

Lemma saved_synced P s s' :
  store_ok P s → (∀ f, files (disk s) !! P = Some f → readable f = true) →
  save s = (Ok tt, s') → store_ok P s' ∧ synced P s'.
Proof.
  intros Hok Hread Hsave.
  destruct (save_inv s s' P (ok_path _ _ Hok) Hsave) as (o & Ho & Hw & ->).
  destruct (to_dump_inv s o Ho) as (a & b & c & Ha & Hb & Hc & ->).
  pose proof (store_ok_dumped P s _ Hok Ho) as Hok1.
  split; [by apply store_ok_on_disk|]. split.
  { simpl. intros f. rewrite lookup_insert_eq. intros [= <-]. simpl.
    destruct (files (disk s) !! P) as [f0|] eqn:E; [by apply Hread|done]. }
  intros h2 Hwf2. cbn [disk on_disk].
  set (g := cells (alloc (dump_of a b c) (mem s)).2).
  set (r := match files (disk s) !! P with
            | Some f => readable f
            | None => true
            end).
  assert (Hr : r = true).
  { unfold r. destruct (files (disk s) !! P) as [f0|] eqn:E;
      [by apply Hread|done]. }
  destruct (load_dump P h2 (write P (Pickled (VRef (next (mem s))) g) (disk s))
              (File (Pickled (VRef (next (mem s))) g) r)
              (next (mem s)) g a b c)
    as (a' & b' & c' & h' & m & Hnew & [l' Hc'] & Hiso & Ha' & Hb' & Hc'').
  { simpl. apply lookup_insert_eq. }
  { done. }
  { reflexivity. }
  { apply (ok_heap _ _ Hok1). }
  { simpl. apply lookup_insert_eq. }
  eexists. split; [exact Hnew|]. split; [by eapply store_ok_loaded|].
  intros n. rewrite view_loaded. unfold view, attr. cbn [self mem on_disk dumped].
  unfold attr in Ha, Hb, Hc. rewrite Ha, Hb, Hc. simpl.
  rewrite <- (iso_reify m _ (cells h') Hiso n a a' Ha').
  rewrite <- (iso_reify m _ (cells h') Hiso n b b' Hb').
  by rewrite <- (iso_reify m _ (cells h') Hiso n c c' Hc'').
Qed.

Lemma set_key_vals k v items x :
  x ∈ (set_key k v items).*2 → x = v ∨ x ∈ items.*2.
Proof.
  induction items as [|[k0 v0] items IH]; simpl.
  - intros ->%list_elem_of_singleton. by left.
  - destruct (decide (k0 = k)); simpl; rewrite !elem_of_cons; naive_solver.
Qed.

Lemma store_ok_store P s l o :
  store_ok P s → is_Some (cells (mem s) !! l) →
  Forall (val_in (cells (mem s))) (obj_vals o) →
  store_ok P (in_heap s (store l o (mem s))).
Proof.
  intros [Hp Hd Hh Hr] Hl Hvs. split; try done.
  - by apply heap_wf_store.
  - intros k v Hk. apply val_in_store; [done|]. by eapply Hr.
Qed.

Lemma store_ok_alloc P s o :
  store_ok P s → Forall (val_in (cells (mem s))) (obj_vals o) →
  store_ok P (in_heap s (alloc o (mem s)).2).
Proof.
  intros Hok Hvs.
  destruct (heap_wf_alloc (mem s) o (ok_heap _ _ Hok) Hvs) as [Hwf Hsub].
  by apply store_ok_in_heap.
Qed.

Lemma py_setitem_ok P c i v s r s' :
  store_ok P s → val_in (cells (mem s)) v →
  py_setitem c i v s = (Ok r, s') → store_ok P s' ∧ disk s' = disk s.
Proof.
  intros Hok Hv H. destruct c; try done. simpl in H.
  apply bind_inv in H as (o & s1 & H1 & H).
  apply deref_inv in H1 as [-> Hl].
  pose proof (closed_vals _ _ _ (proj2 (ok_heap _ _ Hok)) Hl) as Hall.
  rewrite Forall_forall in Hall.
  destruct o as [items|elems|]; try done.
  - inversion H; subst. split; [|done].
    apply (store_ok_store P s); [done|by eexists|].
    apply Forall_forall. intros x [->|Hx]%set_key_vals; [done|by apply Hall].
  - destruct (list_index i (length elems)) as [j|]; [|done].
    inversion H; subst. split; [|done].
    apply (store_ok_store P s); [done|by eexists|]. simpl.
    apply Forall_insert; [by apply Forall_forall|done].
Qed.

Lemma py_delitem_ok P c i s r s' :
  store_ok P s →
  py_delitem c i s = (Ok r, s') → store_ok P s' ∧ disk s' = disk s.
Proof.
  intros Hok H. destruct c; try done. simpl in H.
  apply bind_inv in H as (o & s1 & H1 & H).
  apply deref_inv in H1 as [-> Hl].
  pose proof (closed_vals _ _ _ (proj2 (ok_heap _ _ Hok)) Hl) as Hall.
  destruct o as [items|elems|]; try done.
  - destruct (has_key (KInt i) items); [|done].
    inversion H; subst. split; [|done].
    apply (store_ok_store P s); [done|by eexists|].
    rewrite Forall_forall in Hall.
    apply Forall_forall. intros x Hx%del_key_vals. by apply Hall.
  - destruct (list_index i (length elems)) as [j|]; [|done].
    inversion H; subst. split; [|done].
    apply (store_ok_store P s); [done|by eexists|]. simpl.
    by apply Forall_delete.
Qed.

(** A call that returns keeps the store in order and in step with its
    file. *)
Lemma exec_call_synced P s c r s' :
  store_ok P s → synced P s → exec_call c s = (Ok r, s') →
  store_ok P s' ∧ synced P s'.
Proof.
  intros Hok Hsync H. destruct c as [sent embed|id nt lm|id]; simpl in H.
  - apply bind_inv in H as ([] & s1 & H1 & H). inversion H; subst. clear H.
    rewrite set_unfold in H1.
    destruct (copy_graph (cells (mem s)) (mem s) embed) as [[e' h']|] eqn:Hc;
      [|done].
    eapply saved_synced; [by eapply store_ok_vars|apply Hsync|done].
  - unfold add_subbed_channel in H.
    apply bind_inv in H as (c & s1 & H1 & H).
    apply getattr_inv in H1 as [-> Hc].
    apply bind_inv in H as (b & s1 & H1 & H).
    apply py_contains_inv in H1 as ->.
    destruct b; simpl in H; [by inversion H; subst|].
    apply bind_inv in H as (o & s1 & H1 & H). inversion H1; subst. clear H1.
    apply bind_inv in H as (c' & s1 & H1 & H).
    apply getattr_inv in H1 as [-> Hc'].
    apply bind_inv in H as ([] & s1 & H1 & H).
    apply save_then_true_inv in H.
    pose proof (store_ok_alloc P s (SubscriptionOptions nt lm) Hok) as Hok1.
    apply (py_setitem_ok P) in H1 as [Hok2 Hdisk].
    + eapply saved_synced; [done| |done]. rewrite Hdisk. apply Hsync.
    + apply Hok1. simpl. by repeat constructor.
    + intros k [= <-]. simpl. rewrite lookup_insert_eq. by eexists.
  - unfold remove_subbed_channel in H.
    apply bind_inv in H as (c & s1 & H1 & H).
    apply getattr_inv in H1 as [-> Hc].
    apply bind_inv in H as (b & s1 & H1 & H).
    apply py_contains_inv in H1 as ->.
    destruct b; simpl in H; [|by inversion H; subst].
    apply bind_inv in H as (c' & s1 & H1 & H).
    apply getattr_inv in H1 as [-> Hc'].
    apply bind_inv in H as ([] & s1 & H1 & H).
    apply save_then_true_inv in H.
    apply (py_delitem_ok P) in H1 as [Hok2 Hdisk]; [|done].
    eapply saved_synced; [done| |done]. rewrite Hdisk. apply Hsync.
Qed.

Lemma run_ok_synced P cs :
  ∀ s s', store_ok P s → synced P s → run_ok cs s = Some s' →
    store_ok P s' ∧ synced P s'.
Proof.
  induction cs as [|c cs IH]; intros s s' Hok Hsync H; simpl in H.
  - by inversion H; subst.
  - destruct (exec_call c s) as [[r|e] s1] eqn:E; [|done].
    destruct (exec_call_synced P s c r s1 Hok Hsync E) as [Hok1 Hsync1].
    by eapply IH.
Qed.


(** *** Files that are not dumps *)

Lemma new_garbage P h d f :
  files d !! P = Some f → readable f = true → data f = Garbage →
  new P h d = (Raise UnpicklingError, blank P h d).
Proof.
  intros Hf Hr Hd. rewrite init_unfold. unfold try_except_FileNotFoundError.
  destruct (blank_attrs P h d) as (Hp & _).
  rewrite (bind_ok _ _ _ _ _ (getattr_ok _ _ _ Hp)).
  erewrite bind_raise; [|simpl; rewrite Hf, Hr, Hd; reflexivity]. done.
Qed.

Lemma update_items_run items s :
  update_items items s = (Ok tt, State (merged items (self s)) (mem s) (disk s)).
Proof.
  revert s. induction items as [|[k v] items IH]; intros s; simpl.
  - by destruct s.
  - unfold mbind, M_bind, bind, setattr. by rewrite IH.
Qed.

Lemma merged_lookup_other items m k :
  k ∉ items.*1 → merged items m !! k = m !! k.
Proof.
  revert m. induction items as [|[k0 v0] items IH]; intros m Hk; [done|].
  simpl in *. apply not_elem_of_cons in Hk as [Hne Hk].
  unfold merged in *. simpl. rewrite IH by done.
  by rewrite lookup_insert_ne.
Qed.

Lemma new_dict P h d f l g items :
  files d !! P = Some f → readable f = true →
  data f = Pickled (VRef l) g → closed g → g !! l = Some (ODict items) →
  ∃ items' h', new P h d
      = (Ok tt, State (merged items' (self (blank P h d))) h' d) ∧
    items'.*1 = items.*1.
Proof.
  intros Hf Hr Hd Hcl Hl.
  destruct (copy_graph_total g (mem (blank P h d)) (VRef l) Hcl)
    as [[v' h'] Hc].
  { intros ? [= <-]. by eexists. }
  destruct (copy_graph_spec _ _ _ _ _ Hc) as (m & Hpost & Hv).
  pose proof (copy_post_iso _ _ _ _ Hpost) as Hiso.
  destruct Hv as (l' & -> & Hm).
  destruct (Hiso _ _ Hm) as (o & o' & Ho & Ho' & vs & -> & Hvs).
  rewrite Hl in Ho. inversion Ho; subst. clear Ho.
  exists (zip items.*1 vs), h'. split.
  - rewrite init_unfold. unfold try_except_FileNotFoundError.
    destruct (blank_attrs P h d) as (Hp & _).
    rewrite (bind_ok _ _ _ _ _ (getattr_ok _ _ _ Hp)).
    erewrite bind_ok; [|simpl; rewrite Hf, Hr, Hd; simpl in Hc; rewrite Hc;
                        reflexivity].
    simpl. erewrite bind_ok; [|apply deref_ok; exact Ho'].
    simpl. by rewrite update_items_run.
  - apply fst_zip. apply Forall2_length in Hvs. simpl in Hvs.
    rewrite !length_fmap in *. lia.
Qed.

(** *** The checks are sound *)

Lemma val_inb_sound g v : val_inb g v = true → val_in g v.
Proof.
  intros H l ->. simpl in H. destruct (g !! l); [by eexists|done].
Qed.

Lemma heap_wfb_sound h : heap_wfb h = true → heap_wf h.
Proof.
  unfold heap_wfb. rewrite forallb_forall. intros H.
  assert (H' : ∀ l o, cells h !! l = Some o →
     (l < next h)%positive ∧ Forall (val_in (cells h)) (obj_vals o)).
  { intros l o Hl.
    assert (Hin : In (l, o) (map_to_list (cells h))).
    { apply list_elem_of_In. by apply elem_of_map_to_list. }
    apply H in Hin. simpl in Hin. apply andb_true_iff in Hin as [H1 H2].
    split; [by apply Pos.ltb_lt|].
    apply Forall_forall. intros v Hv. apply val_inb_sound.
    rewrite forallb_forall in H2. apply H2. by apply list_elem_of_In. }
  split.
  - intros l [o Hl]. by apply (H' l o).
  - intros l o l' Hl Hin. destruct (H' l o Hl) as [_ Hall].
    rewrite Forall_forall in Hall. by apply (Hall _ Hin).
Qed.

Lemma store_okb_sound P s : store_okb P s = true → store_ok P s.
Proof.
  unfold store_okb. rewrite !andb_true_iff. intros [[[H1 H2] H3] H4].
  split.
  - by apply bool_decide_eq_true in H1.
  - destruct (to_dump s); [by eexists|done].
  - by apply heap_wfb_sound.
  - intros k v Hk. apply val_inb_sound.
    rewrite forallb_forall in H4. apply (H4 (k, v)).
    apply list_elem_of_In. by apply elem_of_map_to_list.
Qed.

(** *** Reads and results *)

Lemma subbed_channels_count_pure s : (subbed_channels_count s).2 = s.
Proof.
  unfold subbed_channels_count, mbind, M_bind, bind, getattr.
  destruct (self s !! KStr _subscribed_channels) as [c|]; [|done].
  destruct c; try done. simpl. unfold mbind, M_bind, bind, deref.
  destruct (cells (mem s) !! l) as [[]|]; done.
Qed.

Lemma run_result {A} (c : M A) s r :
  (c s).1 = r → c s = (r, (c s).2).
Proof. intros <-. by destruct (c s). Qed.

End StoreFacts.

(** ** Further facts about the methods *)

Module MoreFacts.
Import Py FS Exec DataStore Spec CopyFacts StoreFacts.

(** *** What is kept along a computation *)

Section Keeps.
Context (R : state → state → Prop) `{!Kept R}.

Lemma keeps_bind {A B} (c : M A) (k : A → M B) :
  keeps R c → (∀ a, keeps R (k a)) → keeps R (c ≫= k).
Proof.
  intros Hc Hk s. unfold mbind, M_bind, bind.
  specialize (Hc s). destruct (c s) as [[a|e] s1]; simpl in *; [|done].
  eapply kept_trans; [done|]. apply Hk.
Qed.

Lemma keeps_ret {A} (a : A) : keeps R (mret a).
Proof. intros s. apply kept_refl. Qed.

Lemma keeps_raise {A} e : keeps R (@raise A e).
Proof. intros s. apply kept_refl. Qed.

Lemma keeps_getattr n : keeps R (getattr n).
Proof.
  intros s. unfold getattr. destruct (self s !! KStr n); apply kept_refl.
Qed.

Lemma keeps_deref l : keeps R (deref l).
Proof.
  intros s. unfold deref. destruct (cells (mem s) !! l); apply kept_refl.
Qed.

Lemma keeps_try (c h : M unit) :
  keeps R c → keeps R h → keeps R (try_except_FileNotFoundError c h).
Proof.
  intros Hc Hh s. unfold try_except_FileNotFoundError.
  specialize (Hc s). destruct (c s) as [[[]|e] s1]; simpl in *; [done|].
  destruct e; try done. eapply kept_trans; [done|]. apply Hh.
Qed.

Lemma keeps_new_obj o : keeps R (new_obj o).
Proof. intros s. by apply kept_quiet. Qed.







Lemma keeps_read_pickle p : keeps R (read_pickle p).
Proof.
  destruct p; try apply keeps_raise. intros st. simpl.
  destruct (files (disk st) !! s) as [f|]; [|apply kept_refl].
  destruct (readable f); [|apply kept_refl].
  destruct (data f) as [root g|]; [|apply kept_refl].
  destruct (copy_graph g (mem st) root) as [[v h]|];
    [by apply kept_quiet|apply kept_refl].
Qed.

Lemma keeps_pair_of_elem v : keeps R (pair_of_elem v).
Proof.
  destruct v; try apply keeps_raise.
  - simpl. destruct s as [|a [|b [|]]];
      (apply keeps_ret || apply keeps_raise).
  - simpl. apply keeps_bind; [apply keeps_deref|].
    intros [items|elems|]; [| |apply keeps_raise].
    + destruct items as [|[k1 v1] [|[k2 v2] [|]]];
        (apply keeps_ret || apply keeps_raise).
    + destruct elems as [|k [|x [|]]]; try apply keeps_raise.
      destruct (key_of_val k); (apply keeps_ret || apply keeps_raise).
Qed.
End Keeps.

#[global] Instance quiet_kept : Kept quiet.
Proof.
  split; [done| |done]. intros a b c [H1 H2] [H3 H4]. split; congruence.
Qed.

#[global] Instance frame_kept : Kept frame.
Proof.
  split.
  - done.
  - intros a b c (A1 & A2 & A3 & A4) (B1 & B2 & B3 & B4).
    split_and!; try congruence.
    intros Q HQ. rewrite B4, A4; [done..|]. by rewrite A1.
  - intros s s' [Hs Hd]. unfold frame, attr. rewrite Hs, Hd. done.
Qed.

#[global] Instance same_disk_kept : Kept same_disk.
Proof.
  split; unfold same_disk; [done|congruence|by intros ?? [_ ?]].
Qed.

(** One step of a computation: the first action, then the rest. *)
Ltac kstep tac :=
  first [ apply keeps_bind; [apply _ | tac | ]
        | apply keeps_bind; [tac | ] ].






(** *** [__init__] and the disk *)

Lemma same_disk_setattr k v : keeps same_disk (setattr k v).
Proof. by intros s. Qed.

Lemma same_disk_update_items items : keeps same_disk (update_items items).
Proof.
  induction items as [|[k v] items IH]; simpl; [apply keeps_ret, _|].
  kstep ltac:(apply same_disk_setattr); intros ?. done.
Qed.

Lemma same_disk_update_pairs elems : keeps same_disk (update_pairs elems).
Proof.
  induction elems as [|e elems IH]; simpl; [apply keeps_ret, _|].
  kstep ltac:(apply keeps_pair_of_elem, _); intros ?.
  kstep ltac:(apply same_disk_setattr); intros ?. done.
Qed.

Lemma same_disk_self_dict_update other :
  keeps same_disk (self_dict_update other).
Proof.
  destruct other; try apply keeps_raise, _.
  - simpl. destruct s; [apply keeps_ret, _|apply keeps_raise, _].
  - simpl. kstep ltac:(apply keeps_deref, _).
    intros [items|elems|];
      [apply same_disk_update_items|apply same_disk_update_pairs
      |apply keeps_raise, _].
Qed.

Lemma same_disk_init P : keeps same_disk (__init__ P).
Proof.
  unfold __init__.
  kstep ltac:(apply same_disk_setattr); intros ?.
  kstep ltac:(apply keeps_new_obj, _); intros ?.
  kstep ltac:(apply same_disk_setattr); intros ?.
  kstep ltac:(apply same_disk_setattr); intros ?.
  kstep ltac:(apply keeps_new_obj, _); intros ?.
  kstep ltac:(apply same_disk_setattr); intros ?.
  apply keeps_try; try apply _; [|apply keeps_ret, _].
  kstep ltac:(apply keeps_getattr, _); intros ?.
  kstep ltac:(apply keeps_read_pickle, _); intros ?.
  apply same_disk_self_dict_update.
Qed.

Lemma try_never_not_found (c h : M unit) s :
  (∀ s', (h s').1 ≠ Raise FileNotFoundError) →
  (try_except_FileNotFoundError c h s).1 ≠ Raise FileNotFoundError.
Proof.
  intros Hh. unfold try_except_FileNotFoundError.
  destruct (c s) as [[[]|e] s1]; [done|]. destruct e; try done.
Qed.

(** *** Writes that fail *)


Lemma save_full s P o :
  attr s _pickle_file_path = Some (VStr P) → to_dump s = Some o →
  P ∉ no_write (disk s) → full (disk s) = true →
  save s = (Raise OSError, on_disk (dumped s o) (write P Garbage (disk s))).
Proof.
  intros Hp Ho Hout Hf. rewrite (save_unfold s P o Hp Ho). simpl.
  rewrite decide_False by done. by rewrite Hf.
Qed.




(** The state a successful [save] of [s] ends in. *)
Lemma saved_facts P s o d :
  store_ok P s → to_dump s = Some o →
  store_ok P (on_disk (dumped s o) d) ∧
  (∀ l items, registry s = Some (l, items) →
     registry (on_disk (dumped s o) d) = Some (l, items)) ∧
  (∀ l, is_Some (cells (mem s) !! l) →
     cells (mem (on_disk (dumped s o) d)) !! l = cells (mem s) !! l).
Proof.
  intros Hok Ho. split_and!.
  - by apply store_ok_on_disk, store_ok_dumped.
  - intros l items Hreg. apply registry_dumped; [apply Hok|done].
  - intros l Hl. apply (dumped_lookup s o l); [apply Hok|done].
Qed.

(** *** Values that share no object with a change *)

Lemma reify_agree g g' n v :
  (∀ l, reachable g v l → g' !! l = g !! l) → reify n g' v = reify n g v.
Proof.
  revert v. induction n as [|n IH]; intros v Hag; destruct v; simpl; try done.
  rewrite (Hag l (reach_here g l)).
  destruct (g !! l) as [o|] eqn:Ho; [|done].
  rewrite (Forall_mapM_ext (reify n g') (reify n g)); [done|].
  apply Forall_forall. intros w Hw. apply IH.
  intros l2 Hr. apply Hag. by eapply reach_step.
Qed.

Lemma store1_next : next (mem store1) = 11%positive.
Proof. vm_compute. reflexivity. Qed.

(** *** The registry and the list of subscriptions *)

Lemma entry_is_mono g g' kv e : g ⊆ g' → entry_is g kv e → entry_is g' kv e.
Proof.
  intros Hsub (Hk & lo & Hv & Hlo). split; [done|].
  exists lo. split; [done|]. by eapply lookup_weaken.
Qed.

Lemma registry_holds_mono s s' l items m :
  registry s = Some (l, items) → registry s' = Some (l, items) →
  cells (mem s) ⊆ cells (mem s') →
  Forall2 (entry_is (cells (mem s))) items m → registry_holds s' m.
Proof.
  intros Hreg Hreg' Hsub HF. exists l, items. split; [done|].
  eapply Forall2_impl; [done|]. intros kv e. by apply entry_is_mono.
Qed.

Lemma dumped_sub s o :
  heap_wf (mem s) → cells (mem s) ⊆ cells (mem (dumped s o)).
Proof. intros Hwf. simpl. by apply insert_subseteq, heap_wf_fresh. Qed.

Lemma registry_holds_dumped P s o d m :
  store_ok P s → registry_holds s m →
  registry_holds (on_disk (dumped s o) d) m.
Proof.
  intros Hok (l & items & Hreg & HF).
  eapply registry_holds_mono; [done| | |done].
  - apply registry_dumped; [apply Hok|done].
  - apply dumped_sub, Hok.
Qed.

Lemma has_key_subscribed g items m id :
  Forall2 (entry_is g) items m →
  has_key (KInt id) items = subscribed_to id m.
Proof.
  induction 1 as [|[k v] e items m (Hk & _) _ IH]; [done|].
  simpl in *. rewrite IH. f_equal. subst k.
  destruct (Z.eqb_spec e.1.1 id) as [->|Hne].
  - by apply bool_decide_eq_true_2.
  - apply bool_decide_eq_false_2. congruence.
Qed.

Lemma del_key_unsubscribe g items m id :
  Forall2 (entry_is g) items m →
  Forall2 (entry_is g) (del_key (KInt id) items) (unsubscribe id m).
Proof.
  induction 1 as [|[k v] e items m He HF IH]; [constructor|].
  simpl. destruct He as [Hk Hv]. simpl in Hk. subst k.
  destruct (Z.eqb_spec e.1.1 id) as [->|Hne].
  - by rewrite decide_True.
  - rewrite decide_False by congruence. by constructor.
Qed.

Lemma unsubscribe_absent id m :
  subscribed_to id m = false → unsubscribe id m = m.
Proof.
  induction m as [|e m IH]; simpl; [done|].
  intros [He Hm]%orb_false_iff. rewrite He. by rewrite IH.
Qed.

(** Writing the registry leaves the options objects alone. *)
Lemma entry_is_store g l items o kv e :
  g !! l = Some (ODict items) → entry_is g kv e →
  entry_is (<[l := o]> g) kv e.
Proof.
  intros Hl (Hk & lo & Hv & Hlo). split; [done|]. exists lo. split; [done|].
  rewrite lookup_insert_ne; [done|]. intros ->. by rewrite Hl in Hlo.
Qed.

Lemma exec_call_holds P s c m :
  store_ok P s → registry_holds s m →
  registry_holds (exec_call c s).2 (channels_after [c] m).
Proof.
  intros Hok (l & items & Hreg & HF).
  destruct (registry_inv _ _ _ Hreg) as [Ha Hl].
  destruct c as [sent embed|id nt lm|id]; simpl.
  - rewrite seq_state, set_unfold.
    destruct (copy_graph (cells (mem s)) (mem s) embed) as [[e' h']|] eqn:Hc.
    + pose proof (store_ok_vars P s sent embed e' h' Hok Hc) as Hok1.
      destruct (save_state P _ Hok1) as (o & d & Ho & ->).
      apply (registry_holds_dumped P); [done|].
      eapply registry_holds_mono; [done| | |done].
      * eapply registry_vars_set; [apply Hok|done..].
      * eapply copy_graph_old; [done|apply Hok].
    + simpl. exists l, items. split; [|done].
      apply registry_intro; [|done]. unfold flag_set.
      by rewrite attr_insert_ne.
  - rewrite <- (has_key_subscribed _ _ _ id HF).
    destruct (has_key (KInt id) items) eqn:Hk.
    + rewrite (add_present s l items) by done. by exists l, items.
    + rewrite (add_absent s l items) by (done || apply Hok).
      rewrite seq_state.
      destruct (added_ok P s l items id nt lm Hok Hreg) as [Hok1 Hreg1].
      destruct (save_state P _ Hok1) as (o & d & Ho & ->).
      apply (registry_holds_dumped P); [done|].
      eexists _, _. split; [exact Hreg1|].
      pose proof (heap_wf_fresh _ (ok_heap _ _ Hok)) as Hfresh.
      assert (Hne : l ≠ next (mem s)).
      { intros ->. by rewrite Hfresh in Hl. }
      apply Forall2_app.
      * eapply Forall2_impl; [exact HF|]. intros kv e He. simpl.
        eapply entry_is_store.
        { rewrite lookup_insert_ne by done. exact Hl. }
        eapply entry_is_mono; [|done]. by apply insert_subseteq.
      * constructor; [|constructor]. split; [done|].
        exists (next (mem s)). split; [done|]. simpl.
        rewrite lookup_insert_ne by done. by rewrite lookup_insert_eq.
  - destruct (has_key (KInt id) items) eqn:Hk.
    + rewrite (remove_present s l items) by done. rewrite seq_state.
      destruct (removed_ok P s l items id Hok Hreg) as [Hok1 Hreg1].
      destruct (save_state P _ Hok1) as (o & d & Ho & ->).
      apply (registry_holds_dumped P); [done|].
      eexists _, _. split; [exact Hreg1|].
      eapply Forall2_impl; [by eapply del_key_unsubscribe|].
      intros kv e He. simpl. by eapply entry_is_store.
    + rewrite (remove_absent s l items) by done. simpl.
      rewrite unsubscribe_absent;
        [|by rewrite <- (has_key_subscribed _ _ _ id HF)].
      by exists l, items.
Qed.

Lemma run_holds P cs :
  ∀ s ids m, store_ok P s → registry_is s ids → registry_holds s m →
    store_ok P (run cs s) ∧ registry_holds (run cs s) (channels_after cs m).
Proof.
  induction cs as [|c cs IH]; intros s ids m Hok Hreg Hm; [done|].
  destruct (exec_call_inv P s c ids Hok Hreg) as [Hok1 Hreg1].
  pose proof (exec_call_holds P s c m Hok Hm) as Hm1.
  simpl. destruct c; by eapply IH.
Qed.

Lemma reify_options g n lo nt lm :
  g !! lo = Some (SubscriptionOptions nt lm) →
  reify (S n) g (VRef lo) = Some (TSubscriptionOptions [TEnum nt; TStr lm]).
Proof. intros Hlo. simpl. rewrite Hlo. by destruct n. Qed.

Lemma registry_holds_reify g items m n :
  Forall2 (entry_is g) items m →
  mapM (reify (S n) g) items.*2
  = Some (map (λ e, TSubscriptionOptions [TEnum e.1.2; TStr e.2]) m) ∧
  items.*1 = map (λ e, KInt e.1.1) m.
Proof.
  induction 1 as [|[k v] e items m (Hk & lo & Hv & Hlo) _ [IH1 IH2]];
    [done|].
  simpl in Hk, Hv. subst k v. split.
  - change (((KInt e.1.1, VRef lo) :: items).*2) with (VRef lo :: items.*2).
    cbn [mapM]. rewrite (reify_options g n lo _ _ Hlo).
    cbn [mbind option_bind]. rewrite IH1. done.
  - rewrite fmap_cons, IH2. done.
Qed.

Lemma zip_map {A B C} (f : A → B) (g : A → C) (xs : list A) :
  zip (map f xs) (map g xs) = map (λ x, (f x, g x)) xs.
Proof. induction xs as [|x xs IH]; simpl; [done|]. by rewrite IH. Qed.

Lemma registry_holds_tree s m n l items :
  registry s = Some (l, items) →
  Forall2 (entry_is (cells (mem s))) items m →
  reify (S (S n)) (cells (mem s)) (VRef l) = Some (channels_tree m).
Proof.
  intros [_ Hl]%registry_inv HF.
  destruct (registry_holds_reify _ _ _ n HF) as [H1 H2].
  change (reify (S (S n)) (cells (mem s)) (VRef l)) with
    (match cells (mem s) !! l with
     | None => None
     | Some o =>
         match mapM (reify (S n) (cells (mem s))) (obj_vals o) with
         | None => None
         | Some ts => Some (tree_of o ts)
         end
     end).
  rewrite Hl. cbn [obj_vals]. rewrite H1. cbn [tree_of]. rewrite H2.
  unfold channels_tree. by rewrite zip_map.
Qed.

(** *** Files that hold something else than a dump *)

Lemma copy_graph_atom g h v :
  (∀ l, v ≠ VRef l) → copy_graph g h v = Some (v, h).
Proof. intros Hv. destruct v; try done. by destruct (Hv l). Qed.

Lemma pair_of_elem_found v s :
  (pair_of_elem v s).1 ≠ Raise FileNotFoundError.
Proof.
  unfold pair_of_elem, mbind, M_bind, bind, deref, mret, M_ret, ret, raise.
  repeat case_match; simpl; congruence.
Qed.

Lemma update_pairs_found elems :
  ∀ s, (update_pairs elems s).1 ≠ Raise FileNotFoundError.
Proof.
  induction elems as [|e elems IH]; intros s; simpl; [done|].
  unfold mbind, M_bind, bind.
  pose proof (pair_of_elem_found e s) as He.
  destruct (pair_of_elem e s) as [[kv|e'] s1]; simpl in *; [apply IH|].
  intros [= ->]. by apply He.
Qed.

Lemma self_dict_update_found v s :
  (self_dict_update v s).1 ≠ Raise FileNotFoundError.
Proof.
  destruct v; try done.
  - simpl. by destruct s0.
  - simpl. unfold mbind, M_bind, bind, deref.
    destruct (cells (mem s) !! l) as [[items|elems|]|]; try done.
    + by rewrite update_items_run.
    + apply update_pairs_found.
Qed.

(** [__init__] up to the value unpickled from the file. *)
Lemma new_unpickled P h d f root g v h' :
  files d !! P = Some f → readable f = true → data f = Pickled root g →
  copy_graph g (mem (blank P h d)) root = Some (v, h') →
  new P h d = self_dict_update v (in_heap (blank P h d) h').
Proof.
  intros Hf Hr Hd Hc. rewrite init_unfold.
  unfold try_except_FileNotFoundError.
  destruct (blank_attrs P h d) as (Hp & _).
  rewrite (bind_ok _ _ _ _ _ (getattr_ok _ _ _ Hp)).
  assert (Hread : read_pickle (VStr P) (blank P h d)
                  = (Ok v, in_heap (blank P h d) h')).
  { simpl. rewrite Hf, Hr, Hd. simpl in Hc. by rewrite Hc. }
  rewrite (bind_ok _ _ _ _ _ Hread).
  destruct (self_dict_update v (in_heap (blank P h d) h'))
    as [[[]|e] s1] eqn:E; [done|].
  destruct e; try done.
  pose proof (self_dict_update_found v (in_heap (blank P h d) h')) as Hn.
  by rewrite E in Hn.
Qed.

Lemma merged_lookup_in items m k v :
  NoDup items.*1 → (k, v) ∈ items → merged items m !! k = Some v.
Proof.
  revert m. induction items as [|[k0 v0] items IH]; intros m Hnd Hin.
  - by apply elem_of_nil in Hin.
  - rewrite fmap_cons in Hnd. apply NoDup_cons in Hnd as [Hn Hnd].
    apply elem_of_cons in Hin as [[= -> ->]|Hin].
    + unfold merged. simpl.
      change (merged items (<[k0:=v0]> m) !! k0 = Some v0).
      rewrite merged_lookup_other by done. apply lookup_insert_eq.
    + unfold merged. simpl. by apply IH.
Qed.

Lemma zip_elem_match m (ks : list key) vs vs' k q :
  length ks = length vs → Forall2 (val_match m) vs vs' →
  (k, VStr q) ∈ zip ks vs → (k, VStr q) ∈ zip ks vs'.
Proof.
  intros Hlen HF. revert ks Hlen.
  induction HF as [|v v' vs vs' Hv HF IH]; intros [|k0 ks] Hlen Hin;
    simpl in *; try done.
  apply elem_of_cons in Hin as [[= -> <-]|Hin].
  - simpl in Hv. subst v'. by left.
  - right. apply IH; [lia|done].
Qed.

(** *** Reading a reloaded registry *)

Lemma run_ok_run cs : ∀ s s1, run_ok cs s = Some s1 → run cs s = s1.
Proof.
  induction cs as [|c cs IH]; intros s s1 H; simpl in *; [congruence|].
  destruct (exec_call c s) as [[r|e] s'] eqn:E; [|done]. by apply IH.
Qed.

Lemma count_of_registry s l items :
  registry s = Some (l, items) →
  subbed_channels_count s = (Ok (Z.of_nat (length items)), s).
Proof.
  intros [Ha Hl]%registry_inv. unfold subbed_channels_count.
  rewrite (bind_ok _ _ _ _ _ (getattr_ok _ _ _ Ha)). simpl.
  by rewrite (bind_ok _ _ _ _ _ (deref_ok _ _ _ Hl)).
Qed.

Lemma reify_dict_inv g c n ts :
  reify n g c = Some (TDict ts) →
  ∃ l items, c = VRef l ∧ g !! l = Some (ODict items) ∧
    length items = length ts.
Proof.
  destruct c; destruct n as [|n]; simpl; try done.
  destruct (g !! l) as [o|] eqn:Ho; [|done].
  destruct (mapM (reify n g) (obj_vals o)) as [ts'|] eqn:Hm; [|done].
  destruct o as [items|elems|a b]; simpl; try done.
  intros [= <-]. exists l, items. split_and!; [done..|].
  apply length_mapM in Hm. simpl in Hm. rewrite length_fmap in Hm.
  rewrite length_zip, length_fmap. lia.
Qed.

(** *** The notification variables along the calls *)

Lemma reachable_agree g g' v l :
  (∀ k, reachable g v k → g' !! k = g !! k) →
  reachable g' v l → reachable g v l.
Proof.
  intros Hag Hr. induction Hr as [l|l o w l2 Ho Hw _ IH]; [constructor|].
  rewrite (Hag l (reach_here g l)) in Ho.
  eapply reach_step; [done..|]. apply IH.
  intros k Hk. apply Hag. by eapply reach_step.
Qed.

Lemma reachable_alloc g v l :
  closed g → val_in g v → reachable g v l → is_Some (g !! l).
Proof.
  intros Hcl Hv Hr. induction Hr as [l|l o w l2 Ho Hw _ IH]; [by apply Hv|].
  apply IH. intros k ->. by eapply Hcl.
Qed.

Lemma vars_are_agree h last sent g g' v :
  (∀ k, reachable g v k → g' !! k = g !! k) →
  vars_are h last sent g v → vars_are h last sent g' v.
Proof.
  intros Hag. unfold vars_are. destruct last as [[b embed]|].
  - intros [-> Hre]. split; [done|]. intros n.
    rewrite <- Hre. by apply reify_agree.
  - intros [-> Hre]. split; [done|]. intros n.
    rewrite <- (Hre n). by apply reify_agree.
Qed.

(** A step that keeps the instance and every object but the registry
    keeps the variables. *)
Lemma vars_hold_frame P h s s' last :
  heap_wf h → store_ok P s → vars_hold h s last →
  self s' = self s →
  (∀ k, k ≠ next h → is_Some (cells (mem s) !! k) →
        cells (mem s') !! k = cells (mem s) !! k) →
  vars_hold h s' last.
Proof.
  intros Hwf Hok (Hsub & Hc & sent & e & Hf & He & Hfar & Hare) Hself Hkeep.
  assert (Hag : ∀ k, reachable (cells (mem s)) e k →
                     cells (mem s') !! k = cells (mem s) !! k).
  { intros k Hk. apply Hkeep; [by apply Hfar|].
    eapply reachable_alloc; [apply Hok| |done]. by eapply (ok_refs _ _ Hok). }
  split_and!.
  - apply map_subseteq_spec. intros k o Hk.
    pose proof (lookup_weaken _ _ _ _ Hk Hsub) as Hk'.
    rewrite Hkeep; [done| |by eexists].
    intros ->. by rewrite (heap_wf_fresh h Hwf) in Hk.
  - unfold attr in *. by rewrite Hself.
  - exists sent, e. unfold attr in *. rewrite Hself. split_and!; try done.
    + intros l Hl. apply Hfar. by eapply reachable_agree.
    + by eapply vars_are_agree.
Qed.

Lemma dumped_keep s o d k :
  heap_wf (mem s) → is_Some (cells (mem s) !! k) →
  cells (mem (on_disk (dumped s o) d)) !! k = cells (mem s) !! k.
Proof. intros Hwf Hk. by apply (dumped_lookup s o k). Qed.

Lemma exec_call_vars P h s c last ids :
  heap_wf h → store_ok P s → registry_is s ids → vars_hold h s last →
  call_in (cells h) c →
  vars_hold h (exec_call c s).2 (vars_after [c] last).
Proof.
  intros Hwf Hok (l & items & Hreg & _) Hv Hin.
  destruct (registry_inv _ _ _ Hreg) as [Ha Hl].
  assert (l = next h) as ->.
  { destruct Hv as (_ & Hc & _). rewrite Ha in Hc. by inversion Hc. }
  pose proof (ok_heap _ _ Hok) as Hwfs.
  destruct c as [sent embed|id nt lm|id]; simpl.
  - rewrite seq_state, set_unfold. simpl in Hin.
    destruct Hv as (Hsub & Hc & _).
    assert (Hin' : val_in (cells (mem s)) embed) by by eapply val_in_mono.
    destruct (deep_copy_facts (mem s) embed Hwfs Hin')
      as (e' & h' & Hcopy & Hwf' & Hsub' & Hre & Hfr).
    rewrite Hcopy.
    pose proof (store_ok_vars P s sent embed e' h' Hok Hcopy) as Hok1.
    destruct (save_state P _ Hok1) as (o & d & Ho & ->).
    assert (Hsub2 : cells h' ⊆
              cells (mem (on_disk (dumped (vars_set s sent e' h') o) d))).
    { apply (dumped_sub (vars_set s sent e' h') o), Hok1. }
    pose proof (copy_graph_val_in _ _ _ _ _ Hcopy) as He'.
    split_and!.
    + by do 2 (etrans; [done|]).
    + unfold vars_set, on_disk, dumped; cbn [self mem disk].
      rewrite attr_insert_ne by done. rewrite lookup_insert_ne by done.
      exact Hc.
    + exists sent, e'. split_and!.
      * unfold vars_set, on_disk, dumped; cbn [self mem disk].
        rewrite attr_insert_ne by done. apply lookup_insert_eq.
      * unfold vars_set, on_disk, dumped; cbn [self mem disk].
        by rewrite attr_insert_eq.
      * intros k Hk. apply (reachable_ext (cells h')) in Hk;
          [|done|apply Hwf'|done].
        destruct (Hfr k Hk) as [Hnone _]. intros ->. by rewrite Hl in Hnone.
      * split; [done|]. intros n.
        rewrite (reify_ext (cells h')); [|done|apply Hwf'|done].
        rewrite Hre. apply reify_ext; [done|apply Hwf|done].
  - destruct (has_key (KInt id) items) eqn:Hk.
    + by rewrite (add_present s (next h) items).
    + rewrite (add_absent s (next h) items) by done. rewrite seq_state.
      destruct (added_ok P s (next h) items id nt lm Hok Hreg) as [Hok1 _].
      destruct (save_state P _ Hok1) as (o & d & Ho & ->).
      apply (vars_hold_frame P h s _ last Hwf Hok Hv); [done|].
      intros k Hne Hk'. rewrite dumped_keep; [|apply Hok1|].
      * simpl. rewrite lookup_insert_ne by done. apply lookup_insert_ne.
        intros <-. rewrite (heap_wf_fresh _ Hwfs) in Hk'. by destruct Hk'.
      * simpl. rewrite lookup_insert_ne by done.
        rewrite lookup_insert_ne; [done|].
        intros <-. rewrite (heap_wf_fresh _ Hwfs) in Hk'. by destruct Hk'.
  - destruct (has_key (KInt id) items) eqn:Hk.
    + rewrite (remove_present s (next h) items) by done. rewrite seq_state.
      destruct (removed_ok P s (next h) items id Hok Hreg) as [Hok1 _].
      destruct (save_state P _ Hok1) as (o & d & Ho & ->).
      apply (vars_hold_frame P h s _ last Hwf Hok Hv); [done|].
      intros k Hne Hk'. rewrite dumped_keep; [|apply Hok1|].
      * simpl. by rewrite lookup_insert_ne.
      * simpl. by rewrite lookup_insert_ne.
    + by rewrite (remove_absent s (next h) items).
Qed.

Lemma run_vars P h cs :
  heap_wf h →
  ∀ s ids last, store_ok P s → registry_is s ids → vars_hold h s last →
    Forall (call_in (cells h)) cs →
    store_ok P (run cs s) ∧ vars_hold h (run cs s) (vars_after cs last).
Proof.
  intros Hwf. induction cs as [|c cs IH]; intros s ids last Hok Hreg Hv Hin;
    [done|].
  apply Forall_cons in Hin as [Hc Hin].
  destruct (exec_call_inv P s c ids Hok Hreg) as [Hok1 Hreg1].
  pose proof (exec_call_vars P h s c last ids Hwf Hok Hreg Hv Hc) as Hv1.
  simpl. destruct c; by eapply IH.
Qed.

Lemma vars_hold_blank P h d : heap_wf h → vars_hold h (blank P h d) None.
Proof.
  intros Hwf. destruct (blank_attrs P h d) as (_ & Hc & Hs & He).
  pose proof (heap_wf_fresh h Hwf) as Hfresh.
  assert (Hlook : cells (mem (blank P h d)) !! Pos.succ (next h)
                  = Some (ODict [])).
  { simpl. apply lookup_insert_eq. }
  split_and!; [|done|].
  - simpl. etrans; [by apply insert_subseteq|]. apply insert_subseteq.
    rewrite lookup_insert_ne by lia.
    destruct (cells h !! Pos.succ (next h)) eqn:E; [|done].
    destruct Hwf as [Hlt _].
    assert (Pos.succ (next h) < next h)%positive by (apply Hlt; by eexists).
    lia.
  - exists false, (VRef (Pos.succ (next h))). split_and!; [done..| |].
    + intros l Hr. inversion Hr as [|? o w ? Ho Hw Hr']; subst; [lia|].
      rewrite Hlook in Ho. inversion Ho; subst. by apply elem_of_nil in Hw.
    + split; [done|]. intros n. simpl. by rewrite lookup_insert_eq.
Qed.

(** *** How a call ends *)



End MoreFacts.

(** ** The claims *)

Import Py FS Exec DataStore Spec CopyFacts StoreFacts.

(** C5 (fresh-start default): constructing a store at a path where no file
    exists raises nothing, creates no file, and yields the default state:
    [subbed_channels_count] is 0 and [get_notification_task_vars] returns
    [False] with a copy of the empty dictionary; both reads leave the
    store as it is. *)
Theorem fresh_start_default path h d :
  files d !! path = None →
  ∃ s, new path h d = (Ok tt, s) ∧ disk s = d ∧
    subbed_channels_count s = (Ok 0%Z, s) ∧
    ∃ embed s', get_notification_task_vars s = (Ok (VBool false, embed), s') ∧
      reify 1 (cells (mem s')) embed = Some (TDict []) ∧
      self s' = self s ∧ disk s' = d.
Proof.
  intros Hf. exists (blank path h d). split; [by apply fresh_start|].
  split; [done|].
  destruct (blank_attrs path h d) as (Hp & Hc & Hs & He).
  split.
  - unfold subbed_channels_count.
    rewrite (bind_ok _ _ _ _ _ (getattr_ok _ _ _ Hc)). simpl.
    erewrite bind_ok; [|apply deref_ok; simpl;
      rewrite lookup_insert_ne by lia; by rewrite lookup_insert_eq]. done.
  - unfold get_notification_task_vars.
    rewrite (bind_ok _ _ _ _ _ (getattr_ok _ _ _ Hs)).
    rewrite (bind_ok _ _ _ _ _ (getattr_ok _ _ _ He)).
    unfold mbind, M_bind, bind, deepcopy, copy_graph. simpl.
    rewrite lookup_empty, lookup_insert_eq. simpl.
    eexists _, _. split; [reflexivity|]. simpl.
    rewrite lookup_insert_eq. done.
Qed.




(** C8 (write-through): whenever a mutating call reports success
    ([set_notification_task_vars] returns, [add_subbed_channel] or
    [remove_subbed_channel] returns [True]) the write to the file was
    possible and went through, and the file holds the pickle of all three
    fields as they are in the state the call returns in.  So a call whose
    write is refused or fails never reports success. *)
Theorem write_through P s :
  attr s _pickle_file_path = Some (VStr P) →
  (∀ sent embed s', set_notification_task_vars sent embed s = (Ok tt, s') →
     writable P (disk s) ∧ persisted P s') ∧
  (∀ id nt lm s', add_subbed_channel id nt lm s = (Ok true, s') →
     writable P (disk s) ∧ persisted P s') ∧
  (∀ id s', remove_subbed_channel id s = (Ok true, s') →
     writable P (disk s) ∧ persisted P s').
Proof.
  intros Hp. split_and!.
  - intros sent embed s' H. rewrite set_unfold in H.
    destruct (copy_graph (cells (mem s)) (mem s) embed) as [[e' h']|];
      [|done].
    apply (save_persisted P) in H; [done|].
    by rewrite attr_vars_set.
  - intros id nt lm s' H. unfold add_subbed_channel in H.
    apply bind_inv in H as (c & s1 & H1 & H).
    apply getattr_inv in H1 as [-> Hc].
    apply bind_inv in H as (b & s1 & H1 & H).
    apply py_contains_inv in H1 as ->.
    destruct b; simpl in H; [by inversion H|].
    apply bind_inv in H as (o & s1 & H1 & H). inversion H1; subst. clear H1.
    apply bind_inv in H as (c' & s1 & H1 & H).
    apply getattr_inv in H1 as [-> Hc'].
    apply bind_inv in H as ([] & s1 & H1 & H).
    apply py_setitem_frame in H1 as [Hself Hdisk].
    apply save_then_true_inv in H.
    apply (save_persisted P) in H.
    + by rewrite Hdisk in H.
    + unfold attr. by rewrite Hself.
  - intros id s' H. unfold remove_subbed_channel in H.
    apply bind_inv in H as (c & s1 & H1 & H).
    apply getattr_inv in H1 as [-> Hc].
    apply bind_inv in H as (b & s1 & H1 & H).
    apply py_contains_inv in H1 as ->.
    destruct b; simpl in H; [|by inversion H].
    apply bind_inv in H as (c' & s1 & H1 & H).
    apply getattr_inv in H1 as [-> Hc'].
    apply bind_inv in H as ([] & s1 & H1 & H).
    apply py_delitem_frame in H1 as [Hself Hdisk].
    apply save_then_true_inv in H.
    apply (save_persisted P) in H.
    + by rewrite Hdisk in H.
    + unfold attr. by rewrite Hself.
Qed.

(** C9 (count consistency): from the store constructed where no file
    exists, after any sequence of calls (whether their writes succeed or
    not), [subbed_channels_count] returns the number of distinct channel
    ids inserted and not removed since, and leaves instance, heap and disk
    as they are. *)
Theorem count_consistency P h d cs s0 :
  heap_wf h → files d !! P = None → new P h d = (Ok tt, s0) →
  subbed_channels_count (run cs s0)
  = (Ok (Z.of_nat (size (subscribed cs ∅))), run cs s0).
Proof.
  intros Hwf Hf Hnew. rewrite (fresh_start P h d Hf) in Hnew.
  inversion Hnew; subst. clear Hnew.
  apply registry_is_count.
  apply (run_inv P); [by apply store_ok_blank|].
  exists (next h), []. split; [apply registry_blank|].
  split; [constructor|]. intros k. split.
  - by intros ?%elem_of_nil.
  - by intros (z & _ & ?%not_elem_of_empty).
Qed.

(** C10 (path stability across reload): a successful [save] writes the
    dictionary of exactly the three state fields, without the file path.
    A store constructed at any path [Q] whose file holds that pickle ends
    with [Q] as its path, and its own saves go to [Q]. *)
Theorem path_stable_across_reload P s s' :
  store_ok P s → save s = (Ok tt, s') →
  ∃ a b c f,
    attr s _subscribed_channels = Some a ∧
    attr s _launch_embed_for_current_schedule_sent = Some b ∧
    attr s _previous_schedule_embed_dict = Some c ∧
    files (disk s') !! P = Some f ∧
    data f = Pickled (VRef (next (mem s))) (cells (mem s')) ∧
    cells (mem s') !! next (mem s) = Some (dump_of a b c) ∧
    ∀ Q h2 d2 f2, files d2 !! Q = Some f2 → readable f2 = true →
      data f2 = data f →
      ∃ s2, new Q h2 d2 = (Ok tt, s2) ∧
        attr s2 _pickle_file_path = Some (VStr Q) ∧
        ∀ s3, save s2 = (Ok tt, s3) → persisted Q s3.
Proof.
  intros Hok Hsave.
  destruct (save_inv s s' P (ok_path _ _ Hok) Hsave) as (o & Ho & Hw & ->).
  destruct (to_dump_inv s o Ho) as (a & b & c & Ha & Hb & Hc & ->).
  pose proof (store_ok_dumped P s _ Hok Ho) as Hok1.
  eexists a, b, c, _.
  split; [done|]. split; [done|]. split; [done|].
  split; [simpl; apply lookup_insert_eq|].
  split; [reflexivity|].
  split; [simpl; apply lookup_insert_eq|].
  intros Q h2 d2 f2 Hf2 Hr2 Hd2. cbn [data] in Hd2.
  - destruct (load_dump Q h2 d2 f2 _ _ a b c Hf2 Hr2 Hd2)
      as (a' & b' & c' & h' & m & Hnew & _).
    { apply (ok_heap _ _ Hok1). }
    { simpl. apply lookup_insert_eq. }
    eexists. split; [exact Hnew|].
    destruct (loaded_attrs Q h2 d2 a' b' c' h') as (Hp & _).
    split; [done|].
    intros s3 Hs3. by apply (save_persisted Q) in Hs3 as [_ ?].
Qed.

(** C2 (read isolation): [get_subbed_channels] and
    [get_notification_task_vars] return deep copies.  The copy denotes what
    the field denotes, it is made of objects that did not exist before the
    call, and the call changes no object that did, nor the instance or the
    disk.  Hence any in-place change of the returned mapping or of one of
    its values is a change of such a new object, and in any heap [h']
    that still holds the objects from before the call as they were (a
    heap after a write to an object of the copy is one) the getters return
    again values equal to the state before the change. *)
Theorem read_isolation P s :
  store_ok P s →
  ∃ c b e channels h1 embed h2,
    attr s _subscribed_channels = Some c ∧
    attr s _launch_embed_for_current_schedule_sent = Some b ∧
    attr s _previous_schedule_embed_dict = Some e ∧
    get_subbed_channels s = (Ok channels, in_heap s h1) ∧
    get_notification_task_vars s = (Ok (b, embed), in_heap s h2) ∧
    (∀ n, reify n (cells h1) channels = reify n (cells (mem s)) c) ∧
    (∀ n, reify n (cells h2) embed = reify n (cells (mem s)) e) ∧
    cells (mem s) ⊆ cells h1 ∧ cells (mem s) ⊆ cells h2 ∧
    (∀ l, reachable (cells h1) channels l → cells (mem s) !! l = None) ∧
    (∀ l, reachable (cells h2) embed l → cells (mem s) !! l = None) ∧
    (∀ l o, reachable (cells h1) channels l →
       Forall (val_in (cells h1)) (obj_vals o) →
       heap_wf (store l o h1) ∧ cells (mem s) ⊆ cells (store l o h1)) ∧
    (∀ l o, reachable (cells h2) embed l →
       Forall (val_in (cells h2)) (obj_vals o) →
       heap_wf (store l o h2) ∧ cells (mem s) ⊆ cells (store l o h2)) ∧
    ∀ h', heap_wf h' → cells (mem s) ⊆ cells h' →
      ∃ channels' h1' embed' h2',
        get_subbed_channels (in_heap s h') = (Ok channels', in_heap s h1') ∧
        get_notification_task_vars (in_heap s h')
          = (Ok (b, embed'), in_heap s h2') ∧
        (∀ n, reify n (cells h1') channels' = reify n (cells (mem s)) c) ∧
        (∀ n, reify n (cells h2') embed' = reify n (cells (mem s)) e).
Proof.
  intros Hok. destruct (ok_dump _ _ Hok) as [o Ho].
  destruct (to_dump_inv s o Ho) as (c & b & e & Hc & Hb & He & _).
  pose proof (ok_heap _ _ Hok) as Hwf.
  pose proof (ok_refs _ _ Hok _ _ Hc) as Hcin.
  pose proof (ok_refs _ _ Hok _ _ He) as Hein.
  destruct (deep_copy_facts _ c Hwf Hcin)
    as (channels & h1 & Hc1 & Hwf1 & Hsub1 & Hre1 & Hfr1).
  destruct (deep_copy_facts _ e Hwf Hein)
    as (embed & h2 & Hc2 & Hwf2 & Hsub2 & Hre2 & Hfr2).
  assert (Hstore : ∀ h0 r l o, heap_wf h0 → cells (mem s) ⊆ cells h0 →
    (∀ l, reachable (cells h0) r l →
       cells (mem s) !! l = None ∧ is_Some (cells h0 !! l)) →
    reachable (cells h0) r l → Forall (val_in (cells h0)) (obj_vals o) →
    heap_wf (store l o h0) ∧ cells (mem s) ⊆ cells (store l o h0)).
  { intros h0 r l o' Hwf0 Hsub0 Hfr Hr Hvs.
    destruct (Hfr l Hr) as [Hnone Hsome].
    split; [by apply heap_wf_store|]. simpl.
    apply map_subseteq_spec. intros k y Hk.
    destruct (decide (l = k)) as [<-|Hne]; [congruence|].
    rewrite lookup_insert_ne by done.
    by eapply lookup_weaken. }
  exists c, b, e, channels, h1, embed, h2. split_and!; try done.
  - by rewrite (get_subbed_channels_run s c Hc), Hc1.
  - by rewrite (get_notification_task_vars_run s b e Hb He), Hc2.
  - intros l Hr. by apply Hfr1.
  - intros l Hr. by apply Hfr2.
  - intros l o' Hr Hvs. by apply (Hstore h1 channels).
  - intros l o' Hr Hvs. by apply (Hstore h2 embed).
  - intros h' Hwf' Hsub'.
    destruct (deep_copy_facts h' c Hwf')
      as (channels' & h1' & Hc1' & _ & _ & Hre1' & _);
      [by eapply val_in_mono|].
    destruct (deep_copy_facts h' e Hwf')
      as (embed' & h2' & Hc2' & _ & _ & Hre2' & _);
      [by eapply val_in_mono|].
    exists channels', h1', embed', h2'. split_and!.
    + rewrite (get_subbed_channels_run (in_heap s h') c Hc).
      cbn [mem in_heap]. by rewrite Hc1'.
    + rewrite (get_notification_task_vars_run (in_heap s h') b e Hb He).
      cbn [mem in_heap]. by rewrite Hc2'.
    + intros n. rewrite Hre1'. apply reify_ext; [done|apply Hwf|done].
    + intros n. rewrite Hre2'. apply reify_ext; [done|apply Hwf|done].
Qed.


(** C6, as stated, fails: a readable file holding the pickle of an empty
    dictionary is not of the expected shape, yet the construction returns
    a store, and that store is in the default state: no channel, the flag
    [False] and an empty snapshot. *)
Lemma wrong_shape_file_is_accepted :
  files disk_empty_dict !! path0
    = Some (File (Pickled (VRef 1) {[1%positive := ODict []]}) true) ∧
  expected_shape (Pickled (VRef 1) {[1%positive := ODict []]}) = false ∧
  (∃ s, new path0 heap0 disk_empty_dict = (Ok tt, s) ∧
     subbed_channels_count s = (Ok 0%Z, s) ∧
     observe 1 s = Some (Some (TDict []), Some (TBool false), Some (TDict []))) ∧
  ¬ load_corruption_is_fatal.
Proof.
  assert (Hnew : new path0 heap0 disk_empty_dict
                 = (Ok tt, (new path0 heap0 disk_empty_dict).2)).
  { apply (run_result (__init__ path0)). vm_compute. reflexivity. }
  split; [reflexivity|]. split; [reflexivity|]. split.
  - exists (new path0 heap0 disk_empty_dict).2. split; [exact Hnew|]. split.
    + rewrite <- (subbed_channels_count_pure
                    (new path0 heap0 disk_empty_dict).2) at 2.
      apply run_result. vm_compute. reflexivity.
    + vm_compute. reflexivity.
  - intros Hclaim.
    destruct (Hclaim path0 heap0 disk_empty_dict
                (File (Pickled (VRef 1) {[1%positive := ODict []]}) true))
      as (e & s' & He & _).
    + reflexivity.
    + right. reflexivity.
    + rewrite Hnew in He. discriminate He.
Qed.

(** C6 (load failure is fatal), amended: when the file exists but cannot be
    read, or does not hold a pickle stream, the construction raises
    ([PermissionError], an unpickling error), which the handler of
    [FileNotFoundError] does not catch, so no store is returned.  A file
    that unpickles to a dictionary is accepted whatever its keys: its
    entries are merged into the instance, and the attributes it does not
    name keep the values [__init__] gave them. *)
Theorem load_failure_is_fatal P h d f :
  files d !! P = Some f →
  (readable f = false → new P h d = (Raise PermissionError, blank P h d)) ∧
  (readable f = true → data f = Garbage →
     new P h d = (Raise UnpicklingError, blank P h d)) ∧
  (∀ l g items, readable f = true → data f = Pickled (VRef l) g →
     closed g → g !! l = Some (ODict items) →
     ∃ s, new P h d = (Ok tt, s) ∧
       ∀ k, k ∉ items.*1 → self s !! k = self (blank P h d) !! k).
Proof.
  intros Hf. split_and!.
  - by apply new_unreadable.
  - by apply new_garbage.
  - intros l g items Hr Hd Hcl Hl.
    destruct (new_dict P h d f l g items Hf Hr Hd Hcl Hl)
      as (items' & h' & Hnew & Hkeys).
    eexists. split; [exact Hnew|]. intros k Hk. simpl.
    apply merged_lookup_other. by rewrite Hkeys.
Qed.

(** ** The claims at concrete inputs *)

Lemma store1_ok : store_ok path0 store1.
Proof. apply store_okb_sound. vm_compute. reflexivity. Qed.

Lemma heap1_wf : heap_wf heap1.
Proof. apply heap_wfb_sound. vm_compute. reflexivity. Qed.

Lemma heap0_wf : heap_wf heap0.
Proof. apply heap_wfb_sound. vm_compute. reflexivity. Qed.

Lemma store1_writable : writable path0 (disk store1).
Proof.
  split; [|vm_compute; reflexivity].
  assert (elements (no_write (disk store1)) = []) as Hn
    by (vm_compute; reflexivity).
  intros Hin%elem_of_elements. rewrite Hn in Hin. by apply elem_of_nil in Hin.
Qed.


Lemma fresh_start_default_witness :
  files disk0 !! path0 = None ∧
  ∃ s, new path0 heap0 disk0 = (Ok tt, s) ∧ disk s = disk0 ∧
    subbed_channels_count s = (Ok 0%Z, s) ∧
    ∃ embed s', get_notification_task_vars s = (Ok (VBool false, embed), s') ∧
      reify 1 (cells (mem s')) embed = Some (TDict []) ∧
      self s' = self s ∧ disk s' = disk0.
Proof.
  split; [reflexivity|].
  apply (fresh_start_default path0 heap0 disk0). reflexivity.
Defined.




Lemma read_isolation_witness :
  store_ok path0 store1 ∧
  ∃ c channels h1,
    attr store1 _subscribed_channels = Some c ∧
    get_subbed_channels store1 = (Ok channels, in_heap store1 h1) ∧
    (∀ n, reify n (cells h1) channels = reify n (cells (mem store1)) c) ∧
    (∀ l, reachable (cells h1) channels l → cells (mem store1) !! l = None) ∧
    ∀ l o, reachable (cells h1) channels l →
      Forall (val_in (cells h1)) (obj_vals o) →
      ∃ channels' h1',
        get_subbed_channels (in_heap store1 (store l o h1))
          = (Ok channels', in_heap store1 h1') ∧
        ∀ n, reify n (cells h1') channels'
             = reify n (cells (mem store1)) c.
Proof.
  split; [exact store1_ok|].
  destruct (read_isolation path0 store1 store1_ok)
    as (c & b & e & channels & h1 & embed & h2 & Hc & _ & _ & Hget & _ &
        Hre & _ & _ & _ & Hfr & _ & Hst & _ & Hagain).
  exists c, channels, h1. split; [exact Hc|]. split; [exact Hget|].
  split; [exact Hre|]. split; [exact Hfr|].
  intros l o Hr Hvs. destruct (Hst l o Hr Hvs) as [Hwf Hsub].
  destruct (Hagain _ Hwf Hsub)
    as (channels' & h1' & _ & _ & Hget' & _ & Hre' & _).
  exists channels', h1'. split; [exact Hget'|exact Hre'].
Defined.

Lemma load_failure_is_fatal_witness :
  files disk_garbage !! path0 = Some (File Garbage true) ∧
  new path0 heap0 disk_garbage
  = (Raise UnpicklingError, blank path0 heap0 disk_garbage).
Proof.
  assert (Hf : files disk_garbage !! path0 = Some (File Garbage true)).
  { reflexivity. }
  split; [exact Hf|].
  destruct (load_failure_is_fatal path0 heap0 disk_garbage _ Hf)
    as (_ & Hgarbage & _).
  exact (Hgarbage eq_refl eq_refl).
Defined.


Lemma write_through_witness :
  attr store1 _pickle_file_path = Some (VStr path0) ∧
  ∃ s', add_subbed_channel 42 (Member 0) "@here" store1 = (Ok true, s') ∧
    writable path0 (disk store1) ∧ persisted path0 s'.
Proof.
  pose proof (ok_path _ _ store1_ok) as Hp.
  split; [exact Hp|].
  destruct (write_through path0 store1 Hp) as (_ & Hadd & _).
  assert (Hrun : add_subbed_channel 42 (Member 0) "@here" store1
    = (Ok true, (add_subbed_channel 42 (Member 0) "@here" store1).2)).
  { apply run_result. vm_compute. reflexivity. }
  eexists. split; [exact Hrun|]. exact (Hadd _ _ _ _ Hrun).
Defined.

Lemma count_consistency_witness :
  heap_wf heap1 ∧ files disk0 !! path0 = None ∧
  new path0 heap1 disk0 = (Ok tt, blank path0 heap1 disk0) ∧
  subbed_channels_count store1
  = (Ok (Z.of_nat (size (subscribed calls0 ∅))), store1) ∧
  size (subscribed calls0 ∅) = 1.
Proof.
  assert (Hnew : new path0 heap1 disk0 = (Ok tt, blank path0 heap1 disk0)).
  { apply fresh_start. reflexivity. }
  split; [exact heap1_wf|]. split; [reflexivity|]. split; [exact Hnew|].
  split; [|vm_compute; reflexivity].
  exact (count_consistency path0 heap1 disk0 calls0 _ heap1_wf eq_refl Hnew).
Defined.

Lemma path_stable_across_reload_witness :
  store_ok path0 store1 ∧
  ∃ s', save store1 = (Ok tt, s') ∧
    ∃ s2, new path0 heap0 (disk s') = (Ok tt, s2) ∧
      attr s2 _pickle_file_path = Some (VStr path0).
Proof.
  split; [exact store1_ok|].
  destruct (ok_dump _ _ store1_ok) as [o Ho].
  pose proof (save_ok store1 path0 o (ok_path _ _ store1_ok) Ho
                store1_writable) as Hsave.
  eexists. split; [exact Hsave|].
  destruct (path_stable_across_reload path0 store1 _ store1_ok Hsave)
    as (a & b & c & f & _ & _ & _ & Hf & _ & _ & Hreload).
  assert (Hr : readable f = true).
  { cbn [disk on_disk] in Hf. unfold write in Hf. cbn [files] in Hf.
    rewrite lookup_insert_eq in Hf. injection Hf as <-. cbn [readable].
    vm_compute. reflexivity. }
  destruct (Hreload path0 heap0 _ f Hf Hr eq_refl) as (s2 & Hnew & Hpath & _).
  exists s2. split; [exact Hnew|exact Hpath].
Defined.

(** ** Further properties of the store *)

Import MoreFacts.


(** X8 (construction and the disk): constructing a store, whether it
    returns or raises, neither creates nor changes any file, and it never
    raises [FileNotFoundError]: a missing file is the one failure
    [__init__] handles. *)
Theorem construction_leaves_disk P h d :
  disk (new P h d).2 = d ∧ (new P h d).1 ≠ Raise FileNotFoundError.
Proof.
  split; [apply (same_disk_init P (State ∅ h d))|].
  rewrite init_unfold. by apply try_never_not_found.
Qed.




(** X4 (a write that fails half way): when the file can be opened but no
    space is left, [save] raises [OSError] after the file has been
    truncated: the instance is unchanged, the file at the path no longer
    holds a pickle, and a store constructed at that path afterwards fails
    in [pickle.load] ([UnpicklingError] stands for every failure of
    [pickle.load] on bytes that are no pickle stream, the [EOFError] of an
    empty file included). *)
Theorem save_on_full_disk_loses_file P s :
  store_ok P s → P ∉ no_write (disk s) → full (disk s) = true →
  (∀ f, files (disk s) !! P = Some f → readable f = true) →
  ∃ s', save s = (Raise OSError, s') ∧ self s' = self s ∧
    files (disk s') !! P = Some (File Garbage true) ∧
    ∀ h2, new P h2 (disk s')
          = (Raise UnpicklingError, blank P h2 (disk s')).
Proof.
  intros Hok Hout Hfull Hread.
  destruct (ok_dump _ _ Hok) as [o Ho].
  pose proof (save_full s P o (ok_path _ _ Hok) Ho Hout Hfull) as Hsave.
  eexists. split; [exact Hsave|]. split; [done|].
  assert (Hf : files (disk (on_disk (dumped s o) (write P Garbage (disk s))))
               !! P = Some (File Garbage true)).
  { simpl. rewrite lookup_insert_eq.
    destruct (files (disk s) !! P) as [f|] eqn:E; [|done].
    by rewrite (Hread f). }
  split; [exact Hf|].
  intros h2. by apply (new_garbage P h2 _ _ Hf).
Qed.

(** X5 (set then get, and isolation from the argument): after
    [set_notification_task_vars(sent, embed)], whether its write succeeded
    or not, the store is in working order and
    [get_notification_task_vars] returns [sent] and a mapping equal to
    [embed] as it was at the call.  This stays so in any heap that keeps
    the objects created since the call began, so whatever the caller does
    afterwards to the object it passed, or to any object that existed
    before the call, does not reach the stored snapshot. *)
Theorem set_then_get P s sent embed :
  store_ok P s → val_in (cells (mem s)) embed →
  ∃ r s', set_notification_task_vars sent embed s = (r, s') ∧
    store_ok P s' ∧ cells (mem s) ⊆ cells (mem s') ∧
    ∀ h, heap_wf h →
      (∀ l, (next (mem s) ≤ l)%positive → is_Some (cells (mem s') !! l) →
            cells h !! l = cells (mem s') !! l) →
      ∃ embed2 h2,
        get_notification_task_vars (in_heap s' h)
          = (Ok (VBool sent, embed2), in_heap s' h2) ∧
        ∀ n, reify n (cells h2) embed2 = reify n (cells (mem s)) embed.
Proof.
  intros Hok Hin.
  destruct (deep_copy_facts (mem s) embed (ok_heap _ _ Hok) Hin)
    as (embed' & h' & Hc & Hwf' & Hsub & Hre & Hfr).
  pose proof (store_ok_vars P s sent embed embed' h' Hok Hc) as Hok1.
  destruct (ok_dump _ _ Hok1) as [o Ho].
  destruct (save_any _ P o (ok_path _ _ Hok1) Ho) as (r & d & Hs & _).
  destruct (saved_facts P _ o d Hok1 Ho) as (Hok2 & _ & Hcells).
  exists r, (on_disk (dumped (vars_set s sent embed' h') o) d).
  split; [rewrite set_unfold, Hc; exact Hs|]. split; [exact Hok2|].
  assert (Hsub2 : cells h'
            ⊆ cells (mem (on_disk (dumped (vars_set s sent embed' h') o) d))).
  { apply map_subseteq_spec. intros l x Hl.
    rewrite Hcells; [done|by eexists]. }
  split; [by etrans|].
  intros h Hwf Hag.
  assert (Hag' : ∀ l, reachable (cells h') embed' l →
                      cells h !! l = cells h' !! l).
  { intros l Hr. destruct (Hfr l Hr) as [_ Hsome].
    destruct (copy_graph_fresh _ _ _ _ _ _ Hc Hr) as [Hge _].
    rewrite Hag; [|done|].
    - apply Hcells. exact Hsome.
    - rewrite Hcells; done. }
  assert (Hin2 : val_in (cells h) embed').
  { intros l ->. rewrite (Hag' l (reach_here _ l)).
    by apply (copy_graph_val_in _ _ _ _ _ Hc). }
  destruct (deep_copy_facts h embed' Hwf Hin2)
    as (embed2 & h2 & Hc2 & _ & _ & Hre2 & _).
  exists embed2, h2. split.
  - rewrite (get_notification_task_vars_run _ (VBool sent) embed').
    + cbn [mem in_heap]. by rewrite Hc2.
    + unfold vars_set, on_disk, dumped, in_heap; cbn [self mem disk].
      rewrite attr_insert_ne by done. apply lookup_insert_eq.
    + unfold vars_set, on_disk, dumped, in_heap; cbn [self mem disk].
      by rewrite attr_insert_eq.
  - intros n. rewrite Hre2, <- Hre. by apply reify_agree.
Qed.

(** X6 (the registry is the list of subscriptions): from the store
    constructed where no file exists, after any sequence of calls (whether
    their writes succeed or not), [get_subbed_channels] returns a mapping
    equal to [{id: SubscriptionOptions(type, mentions)}] over the channels
    subscribed and not removed since, in insertion order, each with the
    options of the call that inserted it. *)
Theorem get_subbed_channels_after_calls P h d cs s0 :
  heap_wf h → files d !! P = None → new P h d = (Ok tt, s0) →
  ∃ channels h1,
    get_subbed_channels (run cs s0) = (Ok channels, in_heap (run cs s0) h1) ∧
    ∀ n, reify (S (S n)) (cells h1) channels
         = Some (channels_tree (channels_after cs [])).
Proof.
  intros Hwf Hf Hnew. rewrite (fresh_start P h d Hf) in Hnew.
  inversion Hnew; subst. clear Hnew.
  destruct (run_holds P cs (blank P h d) ∅ []) as [Hok (l & items & Hreg & HF)].
  - by apply store_ok_blank.
  - exists (next h), []. split; [apply registry_blank|].
    split; [constructor|]. intros k. split.
    + by intros ?%elem_of_nil.
    + by intros (z & _ & ?%not_elem_of_empty).
  - exists (next h), []. split; [apply registry_blank|constructor].
  - destruct (registry_inv _ _ _ Hreg) as [Ha Hl].
    destruct (deep_copy_facts (mem (run cs (blank P h d))) (VRef l))
      as (channels & h1 & Hc & _ & _ & Hre & _).
    { apply Hok. }
    { intros ? [= <-]. by eexists. }
    exists channels, h1. split.
    + by rewrite (get_subbed_channels_run _ _ Ha), Hc.
    + intros n. rewrite Hre. by eapply registry_holds_tree.
Qed.

(** X9 (a pickle that is no container): when the file holds the pickle of
    [None], a boolean or an integer, [self.__dict__.update] rejects it and
    the construction raises [TypeError]; a non-empty string makes it raise [ValueError]; the empty
    string is an empty sequence of pairs, so the construction returns a
    store in the state [__init__] set up. *)
Theorem scalar_pickle_at_construction P h d f v g :
  files d !! P = Some f → readable f = true → data f = Pickled v g →
  (is_scalar v = true → new P h d = (Raise TypeError, blank P h d)) ∧
  (v = VStr "" → new P h d = (Ok tt, blank P h d)) ∧
  (∀ a s, v = VStr (String a s) →
     new P h d = (Raise ValueError, blank P h d)).
Proof.
  intros Hf Hr Hd.
  assert (Hrun : (∀ l, v ≠ VRef l) →
            new P h d = self_dict_update v (blank P h d)).
  { intros Hv. apply (new_unpickled P h d f v g v _ Hf Hr Hd).
    by apply copy_graph_atom. }
  split_and!.
  - intros Hs. rewrite Hrun by (by destruct v). by destruct v.
  - intros ->. by rewrite Hrun.
  - intros a s ->. by rewrite Hrun.
Qed.

(** X10 (a dump that names a path): [__init__] merges every entry of the
    unpickled dictionary into the instance, the file path included.  When
    the dictionary in the file at [P] has an entry [_pickle_file_path]
    with the string [Q], the store constructed at [P] has [Q] as its path:
    its saves go to [Q], and leave the file at [P] as it was when [Q]
    differs from [P]. *)
Theorem dump_can_redirect_path P Q h d f l g items :
  files d !! P = Some f → readable f = true →
  data f = Pickled (VRef l) g → closed g → g !! l = Some (ODict items) →
  NoDup items.*1 → (KStr _pickle_file_path, VStr Q) ∈ items →
  ∃ s, new P h d = (Ok tt, s) ∧
    attr s _pickle_file_path = Some (VStr Q) ∧
    ∀ s', save s = (Ok tt, s') →
      persisted Q s' ∧ (Q ≠ P → files (disk s') !! P = Some f).
Proof.
  intros Hf Hr Hd Hcl Hl Hnd Hin.
  destruct (copy_graph_total g (mem (blank P h d)) (VRef l) Hcl)
    as [[v' h'] Hc].
  { intros ? [= <-]. by eexists. }
  destruct (copy_graph_spec _ _ _ _ _ Hc) as (m & Hpost & Hv).
  pose proof (copy_post_iso _ _ _ _ Hpost) as Hiso.
  destruct Hv as (l' & -> & Hm).
  destruct (Hiso _ _ Hm) as (o & o' & Ho & Ho' & vs & -> & Hvs).
  rewrite Hl in Ho. inversion Ho; subst. clear Ho. simpl in Hvs, Ho'.
  assert (Hlen : length items.*1 = length items.*2)
    by by rewrite !length_fmap.
  assert (Hkeys : (zip items.*1 vs).*1 = items.*1).
  { apply fst_zip. apply Forall2_length in Hvs. lia. }
  assert (Hin' : (KStr _pickle_file_path, VStr Q) ∈ zip items.*1 vs).
  { eapply zip_elem_match; [done..|]. by rewrite zip_fst_snd. }
  set (s := State (merged (zip items.*1 vs) (self (blank P h d))) h' d).
  assert (Hnew : new P h d = (Ok tt, s)).
  { rewrite (new_unpickled P h d f _ g _ _ Hf Hr Hd Hc). simpl.
    erewrite bind_ok; [|apply deref_ok; exact Ho'].
    cbv beta iota. by rewrite update_items_run. }
  assert (Hp : attr s _pickle_file_path = Some (VStr Q)).
  { unfold attr, s. cbn [self]. apply merged_lookup_in; [|done].
    by rewrite Hkeys. }
  exists s. split; [exact Hnew|]. split; [exact Hp|].
  intros s' Hsave.
  destruct (save_inv s s' Q Hp Hsave) as (o & Ho & Hw & ->).
  split; [by apply persisted_saved|].
  intros Hne. simpl. by rewrite lookup_insert_ne.
Qed.

(** X11 (the count survives a reload): from the store constructed where no
    file exists, after any sequence of mutating calls that all return, a
    store constructed at the same path afterwards, in any heap, reports
    the same [subbed_channels_count] as the first: the number of channels
    subscribed and not removed since. *)
Theorem count_survives_reload P h d cs s0 s1 :
  heap_wf h → files d !! P = None → new P h d = (Ok tt, s0) →
  run_ok cs s0 = Some s1 →
  ∀ h2, heap_wf h2 →
    ∃ s2, new P h2 (disk s1) = (Ok tt, s2) ∧
      subbed_channels_count s2
      = (Ok (Z.of_nat (length (channels_after cs []))), s2) ∧
      subbed_channels_count s1
      = (Ok (Z.of_nat (length (channels_after cs []))), s1).
Proof.
  intros Hwf Hf Hnew Hrun h2 Hwf2.
  assert (Hown : own_file P d).
  { intros f Hf'. congruence. }
  destruct (init_synced P h d s0 Hwf Hown Hnew) as [Hok0 Hsync0].
  destruct (run_ok_synced P cs s0 s1 Hok0 Hsync0 Hrun) as [Hok1 [_ Hsync1]].
  rewrite (fresh_start P h d Hf) in Hnew. inversion Hnew; subst. clear Hnew.
  apply run_ok_run in Hrun. subst s1.
  destruct (run_holds P cs (blank P h d) ∅ []) as [_ (l & items & Hreg & HF)].
  { by apply store_ok_blank. }
  { exists (next h), []. split; [apply registry_blank|].
    split; [constructor|]. intros k. split.
    - by intros ?%elem_of_nil.
    - by intros (z & _ & ?%not_elem_of_empty). }
  { exists (next h), []. split; [apply registry_blank|constructor]. }
  destruct (Hsync1 h2 Hwf2) as (s2 & Hnew2 & Hok2 & Hview).
  exists s2. split; [exact Hnew2|].
  pose proof (Forall2_length _ _ _ HF) as Hlen.
  split; [|rewrite <- Hlen; by apply count_of_registry with l].
  destruct (registry_inv _ _ _ Hreg) as [Ha Hl].
  pose proof (registry_holds_tree _ _ 0 l items Hreg HF) as Htree.
  assert (Hc : reify 2 (cells (mem s2)) <$> attr s2 _subscribed_channels
               = Some (Some (channels_tree (channels_after cs [])))).
  { etrans; [exact (f_equal (λ p, p.1.1) (Hview 2))|].
    cbn [fst view]. rewrite Ha. cbn [fmap option_fmap option_map].
    by rewrite Htree. }
  apply fmap_Some in Hc as (c2 & Hc2 & Heq). symmetry in Heq.
  destruct (reify_dict_inv _ _ _ _ Heq) as (l2 & items2 & -> & Hl2 & Hlen2).
  rewrite length_map in Hlen2. rewrite <- Hlen2.
  apply count_of_registry with l2. by apply registry_intro.
Qed.

(** X12 (the notification variables after any calls): from the store
    constructed where no file exists, after any sequence of calls whose
    snapshots are objects the caller had at the construction (whether the
    writes succeed or not), [get_notification_task_vars] returns the flag
    of the last [set_notification_task_vars] and a mapping equal to its
    snapshot, or [False] and the empty mapping when there was none.
    Subscribing and unsubscribing in between change neither. *)
Theorem get_notification_task_vars_after_calls P h d cs s0 :
  heap_wf h → files d !! P = None → new P h d = (Ok tt, s0) →
  Forall (call_in (cells h)) cs →
  ∃ sent embed h1,
    get_notification_task_vars (run cs s0)
      = (Ok (VBool sent, embed), in_heap (run cs s0) h1) ∧
    vars_are h (vars_after cs None) sent (cells h1) embed.
Proof.
  intros Hwf Hf Hnew Hin. rewrite (fresh_start P h d Hf) in Hnew.
  inversion Hnew; subst. clear Hnew.
  destruct (run_vars P h cs Hwf (blank P h d) ∅ None)
    as [Hok (_ & _ & sent & e & Hfl & He & _ & Hare)]; [| | |done|].
  - by apply store_ok_blank.
  - exists (next h), []. split; [apply registry_blank|].
    split; [constructor|]. intros k. split.
    + by intros ?%elem_of_nil.
    + by intros (z & _ & ?%not_elem_of_empty).
  - by apply vars_hold_blank.
  - destruct (deep_copy_facts (mem (run cs (blank P h d))) e)
      as (embed & h1 & Hc & _ & _ & Hre & _).
    { apply Hok. }
    { by eapply (ok_refs _ _ Hok). }
    exists sent, embed, h1. split.
    + by rewrite (get_notification_task_vars_run _ _ _ Hfl He), Hc.
    + unfold vars_are in *. destruct (vars_after cs None) as [[b em]|].
      * destruct Hare as [-> Hare]. split; [done|]. intros n.
        by rewrite Hre.
      * destruct Hare as [-> Hare]. split; [done|]. intros n.
        by rewrite Hre.
Qed.


(** ** The further properties at concrete inputs *)







Lemma save_on_full_disk_loses_file_witness :
  store_ok path0 store1_full ∧ full (disk store1_full) = true ∧
  ∃ s', save store1_full = (Raise OSError, s') ∧
    files (disk s') !! path0 = Some (File Garbage true) ∧
    new path0 heap0 (disk s')
    = (Raise UnpicklingError, blank path0 heap0 (disk s')).
Proof.
  assert (Hok : store_ok path0 store1_full).
  { apply store_ok_on_disk, store1_ok. }
  assert (Hout : path0 ∉ no_write (disk store1_full)).
  { change (path0 ∉ (∅ : gset string)). apply not_elem_of_empty. }
  assert (Hrd : match files (disk store1_full) !! path0 with
                | Some f => readable f
                | None => true
                end = true).
  { vm_compute. reflexivity. }
  assert (Hread : ∀ f, files (disk store1_full) !! path0 = Some f →
                       readable f = true).
  { intros f Hf. rewrite Hf in Hrd. exact Hrd. }
  split; [exact Hok|]. split; [reflexivity|].
  destruct (save_on_full_disk_loses_file path0 store1_full Hok Hout eq_refl
              Hread)
    as (s' & Hsave & _ & Hfile & Hnew).
  exists s'. split; [exact Hsave|]. split; [exact Hfile|apply Hnew].
Defined.

Lemma set_then_get_witness :
  store_ok path0 store1 ∧ val_in (cells (mem store1)) (VRef 1) ∧
  ∃ r s', set_notification_task_vars true (VRef 1) store1 = (r, s') ∧
    ∃ embed2 h2,
      get_notification_task_vars (in_heap s' (store 1 (ODict []) (mem s')))
        = (Ok (VBool true, embed2), in_heap s' h2) ∧
      ∀ n, reify n (cells h2) embed2 = reify n (cells (mem store1)) (VRef 1).
Proof.
  assert (Hin : val_in (cells (mem store1)) (VRef 1)).
  { apply val_inb_sound. vm_compute. reflexivity. }
  split; [exact store1_ok|]. split; [exact Hin|].
  destruct (set_then_get path0 store1 true (VRef 1) store1_ok Hin)
    as (r & s' & Hset & Hok' & Hsub & Hget).
  exists r, s'. split; [exact Hset|].
  assert (Hone : is_Some (cells (mem s') !! 1%positive)).
  { destruct (Hin 1%positive eq_refl) as [o Ho]. exists o.
    exact (lookup_weaken _ _ _ _ Ho Hsub). }
  apply Hget.
  - apply heap_wf_store; [apply Hok'|exact Hone|constructor].
  - intros l Hl _. simpl. apply lookup_insert_ne.
    rewrite store1_next in Hl. lia.
Defined.

Lemma get_subbed_channels_after_calls_witness :
  heap_wf heap1 ∧ files disk0 !! path0 = None ∧
  channels_after calls0 [] = [(7%Z, Member 2, ""%string)] ∧
  ∃ channels h1,
    get_subbed_channels store1 = (Ok channels, in_heap store1 h1) ∧
    ∀ n, reify (S (S n)) (cells h1) channels
         = Some (channels_tree (channels_after calls0 [])).
Proof.
  split; [exact heap1_wf|]. split; [reflexivity|]. split; [reflexivity|].
  apply (get_subbed_channels_after_calls path0 heap1 disk0 calls0
           (blank path0 heap1 disk0) heap1_wf eq_refl).
  apply fresh_start. reflexivity.
Defined.

Lemma scalar_pickle_at_construction_witness :
  files disk_int !! path0 = Some (File (Pickled (VInt 5) ∅) true) ∧
  new path0 heap0 disk_int = (Raise TypeError, blank path0 heap0 disk_int).
Proof.
  assert (Hf : files disk_int !! path0
               = Some (File (Pickled (VInt 5) ∅) true)).
  { reflexivity. }
  split; [exact Hf|].
  destruct (scalar_pickle_at_construction path0 heap0 disk_int _ (VInt 5) ∅
              Hf eq_refl eq_refl) as (Hscalar & _).
  exact (Hscalar eq_refl).
Defined.

Lemma dump_can_redirect_path_witness :
  files disk_redirect !! path0
    = Some (File (Pickled (VRef 1) graph_redirect) true) ∧
  closed graph_redirect ∧
  ∃ s, new path0 heap0 disk_redirect = (Ok tt, s) ∧
    attr s _pickle_file_path = Some (VStr "other.pkl") ∧
    ∀ s', save s = (Ok tt, s') → persisted "other.pkl" s'.
Proof.
  assert (Hf : files disk_redirect !! path0
               = Some (File (Pickled (VRef 1) graph_redirect) true)).
  { reflexivity. }
  assert (Hcl : closed graph_redirect).
  { apply (heap_wfb_sound (Heap graph_redirect 2)). vm_compute. reflexivity. }
  split; [exact Hf|]. split; [exact Hcl|].
  destruct (dump_can_redirect_path path0 "other.pkl" heap0 disk_redirect _
              1%positive graph_redirect
              [(KStr _pickle_file_path, VStr "other.pkl")]
              Hf eq_refl eq_refl Hcl)
    as (s & Hnew & Hp & Hsave).
  - reflexivity.
  - simpl. apply NoDup_singleton.
  - apply list_elem_of_singleton. reflexivity.
  - exists s. split; [exact Hnew|]. split; [exact Hp|].
    intros s' Hs'. exact (proj1 (Hsave s' Hs')).
Defined.

Lemma count_survives_reload_witness :
  heap_wf heap1 ∧ files disk0 !! path0 = None ∧
  ∃ s1, run_ok calls0 (blank path0 heap1 disk0) = Some s1 ∧
    ∃ s2, new path0 heap0 (disk s1) = (Ok tt, s2) ∧
      subbed_channels_count s2
      = (Ok (Z.of_nat (length (channels_after calls0 []))), s2) ∧
      length (channels_after calls0 []) = 1.
Proof.
  assert (Hnew : new path0 heap1 disk0 = (Ok tt, blank path0 heap1 disk0)).
  { apply fresh_start. reflexivity. }
  assert (Hsome : match run_ok calls0 (blank path0 heap1 disk0) with
                  | Some _ => true
                  | None => false
                  end = true).
  { vm_compute. reflexivity. }
  split; [exact heap1_wf|]. split; [reflexivity|].
  destruct (run_ok calls0 (blank path0 heap1 disk0)) as [s1|] eqn:Hrun;
    [|discriminate Hsome].
  exists s1. split; [reflexivity|].
  destruct (count_survives_reload path0 heap1 disk0 calls0 _ s1 heap1_wf
              eq_refl Hnew Hrun heap0 heap0_wf)
    as (s2 & Hnew2 & Hcount & _).
  exists s2. split; [exact Hnew2|]. split; [exact Hcount|reflexivity].
Defined.

Lemma get_notification_task_vars_after_calls_witness :
  heap_wf heap1 ∧ files disk0 !! path0 = None ∧
  Forall (call_in (cells heap1)) calls0 ∧
  vars_after calls0 None = Some (true, VRef 1) ∧
  ∃ embed h1,
    get_notification_task_vars store1
      = (Ok (VBool true, embed), in_heap store1 h1) ∧
    ∀ n, reify n (cells h1) embed = reify n (cells heap1) (VRef 1).
Proof.
  assert (Hin : Forall (call_in (cells heap1)) calls0).
  { repeat constructor. apply val_inb_sound. reflexivity. }
  split; [exact heap1_wf|]. split; [reflexivity|]. split; [exact Hin|].
  split; [reflexivity|].
  destruct (get_notification_task_vars_after_calls path0 heap1 disk0 calls0
              (blank path0 heap1 disk0) heap1_wf eq_refl)
    as (sent & embed & h1 & Hget & Hare); [apply fresh_start; reflexivity
                                          |exact Hin|].
  destruct Hare as [-> Hre].
  exists embed, h1. split; [exact Hget|exact Hre].
Defined.


